(** * The playlist route: [apps/web/app/api/playlist/route.ts]

    A shallow embedding of the [GET] handler that serves the streaming
    manifest of a recorded video, and the properties of its
    authorization decision, its segment resolution ([Promise.all] over
    the listed objects) and its error paths.

    The handler talks to five collaborators (the video table, the
    session, S3 listing, URL signing and S3 object metadata).  They are
    the fields of a [World]; every call the handler makes is appended to
    a trace, so that "is never consulted" and "before any collaborator
    is invoked" are statements about that trace. *)

From stdpp Require Import base option list strings gmap.

(** ** JavaScript values the handler handles *)

(** What is thrown, or a promise is rejected with. *)
Definition JsError := string.

(** The settled state of an awaited call. *)
Inductive Result (A : Type) : Type :=
| Ok (a : A)
| Throw (e : JsError).
Arguments Ok {A} a.
Arguments Throw {A} e.

(** The value held by the [public] column as the handler sees it.  The
    handler compares it with [===], so the values that are not booleans
    are kept apart. *)
Inductive JsFlag := JsTrue | JsFalse | JsNull | JsUndefined.

(** [v === false] *)
Definition strict_eq_false (v : JsFlag) : bool :=
  match v with JsFalse => true | _ => false end.

(** Truthiness of a string: [""] is the only falsy one. *)
Definition truthy (s : string) : bool := negb (String.eqb s "").

(** [x || ""] for [x : string | null | undefined]. *)
Definition or_empty (x : option string) : string :=
  match x with
  | Some s => if truthy s then s else ""
  | None => ""
  end.

(** ** Data *)

Record Video := {
  video_id : string;
  video_ownerId : string;
  video_public : JsFlag }.

Record User := { user_userId : string }.

Record ProcessEnv := {
  NEXT_PUBLIC_URL : option string;
  CAP_AWS_REGION : option string;
  CAP_AWS_ACCESS_KEY : option string;
  CAP_AWS_SECRET_KEY : option string;
  CAP_AWS_BUCKET : option string }.

(** [request.nextUrl]: its origin and its query string, in order. *)
Record NextRequest := {
  origin : string;
  searchParams : list (string * string) }.

(** [URLSearchParams.get]: the first value of the name, or null. *)
Fixpoint get (params : list (string * string)) (name : string) : option string :=
  match params with
  | [] => None
  | (k, v) :: rest => if String.eqb k name then Some v else get rest name
  end.

(** [searchParams.get(name) || ""] *)
Definition param (request : NextRequest) (name : string) : string :=
  or_empty (get (searchParams request) name).

Record ListObjectsV2Input := {
  list_Bucket : string;
  list_Prefix : string;
  list_MaxKeys : option nat }.

(** An entry of a listing.  S3 fills [Key] for every listed object. *)
Record S3Object := { Key : string }.

Record ListObjectsV2Output := { Contents : option (list S3Object) }.

Record HeadObjectOutput := { Metadata : option (gmap string string) }.

(** The element type of [chunksUrls]. *)
Record Chunk := { url : string; duration : string }.

(** The first field of the JSON bodies: [error: true] or [error: error]. *)
Inductive JsonError := ErrorTrue | ErrorThrown (e : JsError).

(** A response body: [JSON.stringify({ error, message })] or a text. *)
Inductive Body :=
| BodyJson (error : JsonError) (message : string)
| BodyText (text : string).

Record Response := {
  body : Body;
  status : nat;
  headers : list (string * string) }.

(** ** Collaborators and the trace of calls *)

Inductive Call :=
| CallDbSelectVideos (videoId : string)
| CallGetCurrentUser
| CallListObjectsV2 (input : ListObjectsV2Input)
| CallGetSignedUrl (Bucket key : string) (expiresIn : nat)
| CallHeadObject (Bucket key : string)
| CallGenerateM3U8Playlist (urls : list Chunk)
| CallConsoleError (message : string) (error : JsError).

(** What each collaborator answers.  Every call settles: it is
    fulfilled or rejected, and the answer depends on the arguments
    only. *)
Record World := {
  env : ProcessEnv;
  (** [db.select().from(videos).where(eq(videos.id, videoId))] *)
  db_select_videos : string -> Result (list Video);
  getCurrentUser : Result (option User);
  (** [s3Client.send(new ListObjectsV2Command(input))] *)
  listObjectsV2 : ListObjectsV2Input -> Result ListObjectsV2Output;
  (** [getSignedUrl(s3Client, new GetObjectCommand({Bucket, Key}), {expiresIn})] *)
  getSignedUrl : string -> string -> nat -> Result string;
  (** [s3Client.send(new HeadObjectCommand({Bucket, Key}))] *)
  headObject : string -> string -> Result HeadObjectOutput }.

Definition Trace := list Call.

(** An async computation: from the calls made so far to its state and
    the calls made once it stops.  [None] is a promise that is still
    pending when nothing is left to run. *)
Definition M (A : Type) : Type := Trace -> option (Result A) * Trace.

Definition ret {A} (a : A) : M A := fun tr => (Some (Ok a), tr).

Definition bind {A B} (m : M A) (k : A -> M B) : M B :=
  fun tr =>
    match m tr with
    | (Some (Ok a), tr') => k a tr'
    | (Some (Throw e), tr') => (Some (Throw e), tr')
    | (None, tr') => (None, tr')
    end.

(** [await] of a collaborator call. *)
Definition call {A} (c : Call) (r : Result A) : M A :=
  fun tr => (Some r, tr ++ [c]).

(** An expression that returns or throws without calling anyone. *)
Definition eval {A} (r : Result A) : M A := fun tr => (Some r, tr).

(** [try { body } catch (error) { handler }] *)
Definition try_catch {A} (body : M A) (handler : JsError -> M A) : M A :=
  fun tr =>
    match body tr with
    | (Some (Throw e), tr') => handler e tr'
    | r => r
    end.

Notation "'let*' x ':=' m 'in' k" := (bind m (fun x => k))
  (at level 10, x name, m at level 100, k at level 200).

(** ** [Promise.all(objects.map(async (object) => ...))] *)

(** [metadata?.Metadata?.duration ?? ""] *)
Definition duration_of (metadata : HeadObjectOutput) : string :=
  match Metadata metadata with
  | Some m => match m !! "duration" with Some d => d | None => "" end
  | None => ""
  end.

(** Where the async callback of one object stands. *)
Inductive Task :=
| AwaitingSignedUrl (object : S3Object)
| AwaitingMetadata (object : S3Object) (signed : string)
| Settled (r : Result Chunk).

(** The state of [Promise.all]: the callbacks, the array of values it
    fills by index, and its own state ([None] while pending). *)
Record AllState := {
  tasks : list Task;
  values : list (option Chunk);
  outcome : option (Result (list Chunk)) }.

(** The values once no slot is empty. *)
Definition all_values (vs : list (option Chunk)) : option (list Chunk) :=
  mapM (M := option) id vs.

(** Callback [i] returned [c]: [values[i] = c], and [Promise.all] is
    fulfilled when that was the last one. *)
Definition fulfil (i : nat) (c : Chunk) (st : AllState) : AllState :=
  let values' := <[i := Some c]> (values st) in
  {| tasks := <[i := Settled (Ok c)]> (tasks st);
     values := values';
     outcome := Ok <$> all_values values' |}.

(** Callback [i] threw [e]: [Promise.all] is rejected with it. *)
Definition reject (i : nat) (e : JsError) (st : AllState) : AllState :=
  {| tasks := <[i := Settled (Throw e)]> (tasks st);
     values := values st;
     outcome := Some (Throw e) |}.

Section PromiseAll.
Variable w : World.
Variable bucket : string.

(** The call callback [i] is waiting for completes while
    [Promise.all] is pending: the callback goes on to its next [await],
    returns, or throws. *)
Definition complete_pending (i : nat) (s : AllState * Trace) : AllState * Trace :=
  match outcome s.1 with
  | Some _ => s
  | None =>
    match tasks s.1 !! i with
    | Some (AwaitingSignedUrl object) =>
        match getSignedUrl w bucket (Key object) 3600 with
        | Ok signed =>
            ({| tasks := <[i := AwaitingMetadata object signed]> (tasks s.1);
                values := values s.1;
                outcome := None |},
             s.2 ++ [CallHeadObject bucket (Key object)])
        | Throw e => (reject i e s.1, s.2)
        end
    | Some (AwaitingMetadata object signed) =>
        match headObject w bucket (Key object) with
        | Ok metadata =>
            (fulfil i {| url := signed; duration := duration_of metadata |} s.1, s.2)
        | Throw e => (reject i e s.1, s.2)
        end
    | _ => s
    end
  end.

(** The signing of callback [i] completes after [Promise.all] has been
    rejected and before the handler has resumed (the handler resumes
    some microtasks after the rejection, so this is a signing that
    settles in the same tick).  The callback runs on: it issues its
    metadata call, or throws; the state of [Promise.all] stays.  The
    completion of a metadata call at that point shows nothing. *)
Definition late (i : nat) (s : AllState * Trace) : AllState * Trace :=
  match tasks s.1 !! i with
  | Some (AwaitingSignedUrl object) =>
      match getSignedUrl w bucket (Key object) 3600 with
      | Ok signed =>
          ({| tasks := <[i := AwaitingMetadata object signed]> (tasks s.1);
              values := values s.1;
              outcome := outcome s.1 |},
           s.2 ++ [CallHeadObject bucket (Key object)])
      | Throw e =>
          ({| tasks := <[i := Settled (Throw e)]> (tasks s.1);
              values := values s.1;
              outcome := outcome s.1 |},
           s.2)
      end
  | _ => s
  end.

(** The call callback [i] is waiting for completes.  Once
    [Promise.all] is fulfilled every callback has returned. *)
Definition complete (i : nat) (s : AllState * Trace) : AllState * Trace :=
  match outcome s.1 with
  | Some (Throw _) => late i s
  | _ => complete_pending i s
  end.

Definition run (order : list nat) (s : AllState * Trace) : AllState * Trace :=
  foldl (fun s i => complete i s) s order.

(** What is still pending completes in the given order, until
    [Promise.all] settles. *)
Definition drain (order : list nat) (s : AllState * Trace) : AllState * Trace :=
  foldl (fun s i => complete_pending i s) s order.

(** [map] starts every callback in listing order: each one issues its
    signing call and suspends. *)
Definition started (objects : list S3Object) (tr : Trace) : AllState * Trace :=
  ({| tasks := AwaitingSignedUrl <$> objects;
      values := replicate (length objects) None;
      outcome := Ok <$> all_values (replicate (length objects) None) |},
   tr ++ ((fun object => CallGetSignedUrl bucket (Key object) 3600) <$> objects)).

(** [await Promise.all(...)].  [schedule] is the order in which the
    calls complete until the handler resumes, by callback index;
    completions listed after the one that rejects [Promise.all] are
    those that settle before the handler has resumed.  Whatever the
    schedule leaves pending completes afterwards in index order, so
    every list is a schedule and every completion order is one of
    them.  Calls issued after the handler has resumed are not part of
    its run. *)
Definition promise_all_map (schedule : list nat) (objects : list S3Object)
  : M (list Chunk) :=
  fun tr =>
    let n := length objects in
    let s := drain (seq 0 n ++ seq 0 n) (run schedule (started objects tr)) in
    (outcome s.1, s.2).

(** The callback of one object, run alone. *)
Definition resolve (object : S3Object) : Result Chunk :=
  match getSignedUrl w bucket (Key object) 3600 with
  | Ok signed =>
      match headObject w bucket (Key object) with
      | Ok metadata => Ok {| url := signed; duration := duration_of metadata |}
      | Throw e => Throw e
      end
  | Throw e => Throw e
  end.
End PromiseAll.

(** ** The manifest builder *)

Definition newline : string := String (Ascii.ascii_of_nat 10) EmptyString.

Record ManifestEntry := { entry_duration : string; entry_url : string }.

(** Modelled from the spec: the entry [generateM3U8Playlist] (of
    [utils/video/ffmpeg/helpers], not among the sources) makes of one
    resolved segment.  It carries the segment's signed URL and its
    duration, with the fallback duration 0 when the duration is
    absent. *)
Definition manifest_entry (c : Chunk) : ManifestEntry :=
  {| entry_duration := if truthy (duration c) then duration c else "0";
     entry_url := url c |}.

(** Modelled from the spec: the entries of the manifest, one for each
    resolved segment and in their order; none is omitted. *)
Definition manifest_entries (urls : list Chunk) : list ManifestEntry :=
  manifest_entry <$> urls.

(** Modelled from the spec: the text of one entry, its duration and
    then its URL. *)
Definition render_entry (e : ManifestEntry) : string :=
  "#EXTINF:" +:+ entry_duration e +:+ "," +:+ newline +:+ entry_url e +:+ newline.

(** Modelled from the spec: [generateM3U8Playlist] of
    [utils/video/ffmpeg/helpers] is not among the sources.  The spec
    has it render a sequential-segment playlist of the entries; the
    text is a function of the sequence it is given. *)
Definition generateM3U8Playlist (urls : list Chunk) : string :=
  "#EXTM3U" +:+ newline
  +:+ foldr (fun e rest => render_entry e +:+ rest) "#EXT-X-ENDLIST"
        (manifest_entries urls).

(** ** The handler *)

Definition allowedOrigins (e : ProcessEnv) : list (option string) :=
  [NEXT_PUBLIC_URL e; Some "https://cap.link"; Some "cap.link"].

(** [allowedOrigins.includes(x)] *)
Definition includes (l : list (option string)) (x : string) : bool :=
  bool_decide (Some x ∈ l).

Definition cors_headers (w : World) (request : NextRequest) : list (string * string) :=
  [("Access-Control-Allow-Origin",
    if includes (allowedOrigins (env w)) (origin request)
    then origin request else "null");
   ("Access-Control-Allow-Credentials", "true");
   ("Access-Control-Allow-Methods", "GET, OPTIONS")].

(** [new Response(JSON.stringify({ error, message }), { status, headers })].
    The body is a string and the init names no content type, so the
    constructor adds the content type of a string body after the
    headers of the init. *)
Definition json_response (w : World) (request : NextRequest)
    (error : JsonError) (message : string) (code : nat) : Response :=
  {| body := BodyJson error message;
     status := code;
     headers := cors_headers w request
                ++ [("content-type", "text/plain;charset=UTF-8")] |}.

(** [new Response(generatedPlaylist, { status: 200, headers })]: the
    init names the content type, and the constructor adds none. *)
Definition playlist_response (w : World) (request : NextRequest)
    (generatedPlaylist : string) : Response :=
  {| body := BodyText generatedPlaylist;
     status := 200;
     headers := ("content-type", "application/x-mpegURL") :: cors_headers w request |}.

(** The [switch (videoType)] of the handler. *)
Definition switch_videoType (userId videoId videoType : string) : option string :=
  let screenPrefix := userId +:+ "/" +:+ videoId +:+ "/screen/" in
  let videoPrefix := userId +:+ "/" +:+ videoId +:+ "/video/" in
  let audioPrefix := userId +:+ "/" +:+ videoId +:+ "/audio/" in
  if String.eqb videoType "screen" then Some screenPrefix
  else if String.eqb videoType "video" then Some videoPrefix
  else if String.eqb videoType "audio" then Some audioPrefix
  else None.

(** [new ListObjectsV2Command({ Bucket, Prefix, MaxKeys: thumbnail ? 1 : undefined })] *)
Definition ListObjectsV2Command (bucket prefix thumbnail : string)
  : ListObjectsV2Input :=
  {| list_Bucket := bucket;
     list_Prefix := prefix;
     list_MaxKeys := if truthy thumbnail then Some 1 else None |}.

(** [objects.Contents || []] *)
Definition contents_or_empty (objects : ListObjectsV2Output) : list S3Object :=
  match Contents objects with
  | Some l => l
  | None => []
  end.

(** [const bucket = process.env.CAP_AWS_BUCKET || ""] *)
Definition bucket_of (w : World) : string := or_empty (CAP_AWS_BUCKET (env w)).

(** The configuration given to [new S3Client]. *)
Record S3ClientConfig := {
  region : string;
  accessKeyId : string;
  secretAccessKey : string }.

(** [new S3Client(config)].  The constructor resolves the region at
    once and throws when it is empty; the credentials are read only
    when a command is sent. *)
Definition new_S3Client (config : S3ClientConfig) : Result S3ClientConfig :=
  if truthy (region config) then Ok config else Throw "Region is missing".

(** The configuration of lines 110-116. *)
Definition client_config (w : World) : S3ClientConfig :=
  {| region := or_empty (CAP_AWS_REGION (env w));
     accessKeyId := or_empty (CAP_AWS_ACCESS_KEY (env w));
     secretAccessKey := or_empty (CAP_AWS_SECRET_KEY (env w)) |}.

(** Lines 110-215: the S3 client, the prefixes and the [try] block.
    The client is made before the [try] block is entered; the calls
    of the world are those sent through it. *)
Definition stream (w : World) (schedule : list nat) (request : NextRequest)
    (userId videoId videoType thumbnail : string) : M Response :=
  let* s3Client := eval (new_S3Client (client_config w)) in
  let bucket := bucket_of w in
  try_catch
    (match switch_videoType userId videoId videoType with
     | None => ret (json_response w request ErrorTrue "Invalid video type" 401)
     | Some prefix =>
         let objectsCommand := ListObjectsV2Command bucket prefix thumbnail in
         let* objects := call (CallListObjectsV2 objectsCommand)
                              (listObjectsV2 w objectsCommand) in
         let* chunksUrls :=
           promise_all_map w bucket schedule (contents_or_empty objects) in
         let* generatedPlaylist :=
           call (CallGenerateM3U8Playlist chunksUrls)
                (Ok (generateM3U8Playlist chunksUrls)) in
         ret (playlist_response w request generatedPlaylist)
     end)
    (fun error =>
       let* _ := call (CallConsoleError "Error generating video segment URLs" error)
                      (Ok tt) in
       ret (json_response w request (ErrorThrown error)
              "Error generating video URLs" 500)).

Definition GET (w : World) (schedule : list nat) (request : NextRequest) : M Response :=
  let userId := param request "userId" in
  let videoId := param request "videoId" in
  let videoType := param request "videoType" in
  let thumbnail := param request "thumbnail" in
  if negb (truthy userId) || negb (truthy videoId) then
    ret (json_response w request ErrorTrue "userId or videoId not supplied" 401)
  else
    let* query := call (CallDbSelectVideos videoId) (db_select_videos w videoId) in
    match query with
    | [] => ret (json_response w request ErrorTrue "Video does not exist" 401)
    | video :: _ =>
        let continue := stream w schedule request userId videoId videoType thumbnail in
        if strict_eq_false (video_public video) then
          let* user := call CallGetCurrentUser (getCurrentUser w) in
          if match user with
             | None => true
             | Some u => negb (String.eqb (user_userId u) (video_ownerId video))
             end
          then ret (json_response w request ErrorTrue "Video is not public" 401)
          else continue
        else continue
    end.

(** The listing command without its [MaxKeys]. *)
Definition uncapped (input : ListObjectsV2Input) : ListObjectsV2Input :=
  {| list_Bucket := list_Bucket input;
     list_Prefix := list_Prefix input;
     list_MaxKeys := None |}.

(** What [MaxKeys] asks of the store: a capped listing answers the
    first [n] keys of the uncapped one. *)
Definition honours_MaxKeys (w : World) : Prop :=
  ∀ input n stored,
    list_MaxKeys input = Some n →
    listObjectsV2 w (uncapped input) = Ok stored →
    ∃ capped,
      listObjectsV2 w input = Ok capped
      ∧ contents_or_empty capped = take n (contents_or_empty stored).

(** The world in which the session provider answers [session]. *)
Definition with_session (w : World) (session : Result (option User)) : World :=
  {| env := env w;
     db_select_videos := db_select_videos w;
     getCurrentUser := session;
     listObjectsV2 := listObjectsV2 w;
     getSignedUrl := getSignedUrl w;
     headObject := headObject w |}.

(** ** A concrete store, to run the handler on *)

Record StoredObject := {
  stored_key : string;
  stored_metadata : option (gmap string string) }.

(** A listing: the stored keys under the prefix, in stored order, cut
    to [MaxKeys] when it is given. *)
Definition store_list (objs : list StoredObject) (input : ListObjectsV2Input)
  : list S3Object :=
  let under :=
    filter (fun o => String.prefix (list_Prefix input) (stored_key o) = true) objs in
  let listed := (fun o => {| Key := stored_key o |}) <$> under in
  match list_MaxKeys input with
  | Some n => take n listed
  | None => listed
  end.

Fixpoint store_head (objs : list StoredObject) (key : string) : Result HeadObjectOutput :=
  match objs with
  | [] => Throw "NotFound"
  | o :: rest =>
      if String.eqb (stored_key o) key
      then Ok {| Metadata := stored_metadata o |}
      else store_head rest key
  end.

Definition store_world (e : ProcessEnv) (rows : list Video) (session : option User)
    (objs : list StoredObject) : World :=
  {| env := e;
     db_select_videos := fun videoId =>
       Ok (filter (fun v => video_id v = videoId) rows);
     getCurrentUser := Ok session;
     listObjectsV2 := fun input => Ok {| Contents := Some (store_list objs input) |};
     getSignedUrl := fun b key _ => Ok ("https://" +:+ b +:+ ".s3/" +:+ key +:+ "?sig");
     headObject := fun _ key => store_head objs key |}.

(** ** Reading runs: the invariant of [Promise.all] *)

(** How many more completions callback [t] waits for. *)
Definition waits (t : Task) : nat :=
  match t with
  | AwaitingSignedUrl _ => 2
  | AwaitingMetadata _ _ => 1
  | Settled _ => 0
  end.

Definition waits_at (st : AllState) (i : nat) : nat :=
  from_option waits 0 (tasks st !! i).

(** The calls the callbacks make. *)
Definition storage_call (c : Call) : Prop :=
  match c with
  | CallGetSignedUrl _ _ _ | CallHeadObject _ _ => True
  | _ => False
  end.

Section Invariant.
Variable w : World.
Variable bucket : string.
Variable objects : list S3Object.

(** Callback [i] and slot [i] agree with what object [i] resolves to. *)
Definition slot_ok (o : S3Object) (t : Task) (v : option Chunk) : Prop :=
  match t with
  | AwaitingSignedUrl o' => o' = o ∧ v = None
  | AwaitingMetadata o' signed =>
      o' = o ∧ getSignedUrl w bucket (Key o) 3600 = Ok signed ∧ v = None
  | Settled (Ok c) => resolve w bucket o = Ok c ∧ v = Some c
  | Settled (Throw e) => resolve w bucket o = Throw e ∧ v = None
  end.

Definition outcome_ok (st : AllState) : Prop :=
  match outcome st with
  | None =>
      all_values (values st) = None
      ∧ ∀ i e, tasks st !! i ≠ Some (Settled (Throw e))
  | Some (Ok cs) => all_values (values st) = Some cs
  | Some (Throw e) => ∃ o, o ∈ objects ∧ resolve w bucket o = Throw e
  end.

Record inv (st : AllState) : Prop := {
  inv_tasks : length (tasks st) = length objects;
  inv_values : length (values st) = length objects;
  inv_slot : ∀ i o t v,
    objects !! i = Some o → tasks st !! i = Some t → values st !! i = Some v →
    slot_ok o t v;
  inv_outcome : outcome_ok st }.

End Invariant.

Arguments inv_tasks {w bucket objects} st _.
Arguments inv_values {w bucket objects} st _.
Arguments inv_slot {w bucket objects} st _.
Arguments inv_outcome {w bucket objects} st _.

(** ** Reading runs: the [try] block and the handler *)

Section Runs.
Variable w : World.
Variable request : NextRequest.
Variables userId videoId videoType thumbnail : string.

Definition invalid_type_response : Response :=
  json_response w request ErrorTrue "Invalid video type" 401.

(** The response of the [catch] block. *)
Definition error_response (e : JsError) : Response :=
  json_response w request (ErrorThrown e) "Error generating video URLs" 500.

Definition logged (e : JsError) : Call :=
  CallConsoleError "Error generating video segment URLs" e.

(** The client can be made: [CAP_AWS_REGION] is set and not empty. *)
Definition client_configured : Prop := truthy (region (client_config w)) = true.

(** The ways through lines 110-215, from the trace [tr]: the client
    cannot be made, or one of the four ways through the [try] block. *)
Inductive stream_run (tr : Trace) : option (Result Response) * Trace → Prop :=
| run_no_client :
    ¬ client_configured →
    stream_run tr (Some (Throw "Region is missing"), tr)
| run_invalid_type :
    client_configured →
    switch_videoType userId videoId videoType = None →
    stream_run tr (Some (Ok invalid_type_response), tr)
| run_listing_failed prefix e :
    client_configured →
    switch_videoType userId videoId videoType = Some prefix →
    listObjectsV2 w (ListObjectsV2Command (bucket_of w) prefix thumbnail) = Throw e →
    stream_run tr
      (Some (Ok (error_response e)),
       tr ++ [CallListObjectsV2 (ListObjectsV2Command (bucket_of w) prefix thumbnail);
              logged e])
| run_fulfilled prefix objects calls chunksUrls :
    client_configured →
    switch_videoType userId videoId videoType = Some prefix →
    listObjectsV2 w (ListObjectsV2Command (bucket_of w) prefix thumbnail) = Ok objects →
    Forall storage_call calls →
    Forall2 (fun o c => resolve w (bucket_of w) o = Ok c)
      (contents_or_empty objects) chunksUrls →
    stream_run tr
      (Some (Ok (playlist_response w request (generateM3U8Playlist chunksUrls))),
       tr ++ [CallListObjectsV2 (ListObjectsV2Command (bucket_of w) prefix thumbnail)]
          ++ calls ++ [CallGenerateM3U8Playlist chunksUrls])
| run_rejected prefix objects calls o e :
    client_configured →
    switch_videoType userId videoId videoType = Some prefix →
    listObjectsV2 w (ListObjectsV2Command (bucket_of w) prefix thumbnail) = Ok objects →
    Forall storage_call calls →
    o ∈ contents_or_empty objects →
    resolve w (bucket_of w) o = Throw e →
    stream_run tr
      (Some (Ok (error_response e)),
       tr ++ [CallListObjectsV2 (ListObjectsV2Command (bucket_of w) prefix thumbnail)]
          ++ calls ++ [logged e]).

End Runs.

Definition missing_ids_response (w : World) (request : NextRequest) : Response :=
  json_response w request ErrorTrue "userId or videoId not supplied" 401.

Definition not_found_response (w : World) (request : NextRequest) : Response :=
  json_response w request ErrorTrue "Video does not exist" 401.

Definition forbidden_response (w : World) (request : NextRequest) : Response :=
  json_response w request ErrorTrue "Video is not public" 401.

(** The requester is there and is the owner of the video. *)
Definition is_owner (requester : option User) (video : Video) : Prop :=
  ∃ u, requester = Some u ∧ user_userId u = video_ownerId video.

(** The handler's test for a private video is [video.public === false];
    every other video is served as a public one. *)
Definition is_private (video : Video) : Prop := video_public video = JsFalse.

(** The calls made before the [try] block is entered. *)
Definition lookups (videoId : string) (video : Video) : Trace :=
  CallDbSelectVideos videoId
  :: (if strict_eq_false (video_public video) then [CallGetCurrentUser] else []).

Definition lookup_call (c : Call) : Prop :=
  match c with
  | CallDbSelectVideos _ | CallGetCurrentUser => True
  | _ => False
  end.

(** The try block of the handler on this request. *)
Definition stream_of (w : World) (schedule : list nat) (request : NextRequest)
  : M Response :=
  stream w schedule request (param request "userId") (param request "videoId")
    (param request "videoType") (param request "thumbnail").

(** The requester may see the video. *)
Definition granted (w : World) (video : Video) : Prop :=
  ¬ is_private video
  ∨ ∃ requester, getCurrentUser w = Ok requester ∧ is_owner requester video.

(** ** A sample store *)

Definition sample_env : ProcessEnv :=
  {| NEXT_PUBLIC_URL := Some "https://cap.so";
     CAP_AWS_REGION := Some "us-east-1";
     CAP_AWS_ACCESS_KEY := None;
     CAP_AWS_SECRET_KEY := None;
     CAP_AWS_BUCKET := Some "capso" |}.

Definition with_duration (d : string) : option (gmap string string) :=
  Some {[ "duration" := d ]}.

(** Three screen segments, the second without a duration, and one
    audio segment. *)
Definition sample_objects : list StoredObject :=
  [ {| stored_key := "u1/v1/screen/a.ts"; stored_metadata := with_duration "4.0" |};
    {| stored_key := "u1/v1/screen/b.ts"; stored_metadata := None |};
    {| stored_key := "u1/v1/screen/c.ts"; stored_metadata := with_duration "5.5" |};
    {| stored_key := "u1/v1/audio/a.aac"; stored_metadata := with_duration "9.5" |} ].

Definition sample_video (flag : JsFlag) : Video :=
  {| video_id := "v1"; video_ownerId := "u1"; video_public := flag |}.

Definition sample_world (flag : JsFlag) (session : option User) : World :=
  store_world sample_env [sample_video flag] session sample_objects.

(** The sample store, except that the metadata of one key cannot be
    fetched. *)
Definition broken_world (broken : string) : World :=
  let w := sample_world JsTrue None in
  {| env := env w;
     db_select_videos := db_select_videos w;
     getCurrentUser := getCurrentUser w;
     listObjectsV2 := listObjectsV2 w;
     getSignedUrl := getSignedUrl w;
     headObject := fun b key =>
       if String.eqb key broken then Throw "AccessDenied" else headObject w b key |}.

Definition sample_request (videoType : string) (more : list (string * string))
  : NextRequest :=
  {| origin := "https://cap.link";
     searchParams :=
       [("userId", "u1"); ("videoId", "v1"); ("videoType", videoType)] ++ more |}.

Definition sample_listing (thumbnail : string) : ListObjectsV2Input :=
  ListObjectsV2Command "capso" "u1/v1/screen/" thumbnail.

Definition sample_keys : list S3Object :=
  [ {| Key := "u1/v1/screen/a.ts" |};
    {| Key := "u1/v1/screen/b.ts" |};
    {| Key := "u1/v1/screen/c.ts" |} ].

Definition sample_chunks : list Chunk :=
  [ {| url := "https://capso.s3/u1/v1/screen/a.ts?sig"; duration := "4.0" |};
    {| url := "https://capso.s3/u1/v1/screen/b.ts?sig"; duration := "" |};
    {| url := "https://capso.s3/u1/v1/screen/c.ts?sig"; duration := "5.5" |} ].

Definition sample_first : Chunk :=
  {| url := "https://capso.s3/u1/v1/screen/a.ts?sig"; duration := "4.0" |}.

(** ** The preflight handler *)

(** [new Response(null, { status, headers })]: a response without a
    body. *)
Record BodylessResponse := {
  bodyless_status : nat;
  bodyless_headers : list (string * string) }.

(** Lines 23-36. *)
Definition OPTIONS (w : World) (request : NextRequest) : M BodylessResponse :=
  ret {| bodyless_status := 200;
         bodyless_headers :=
           [("Access-Control-Allow-Origin",
             if includes (allowedOrigins (env w)) (origin request)
             then origin request else "null");
            ("Access-Control-Allow-Credentials", "true");
            ("Access-Control-Allow-Methods", "GET, OPTIONS")] |}.

(** ** Reading runs: every way through the handler *)

(** The ways through [GET], with what it answers and the calls made. *)
Inductive GET_run (w : World) (request : NextRequest)
  : option (Result Response) * Trace → Prop :=
| get_missing_ids :
    truthy (param request "userId") = false
    ∨ truthy (param request "videoId") = false →
    GET_run w request (Some (Ok (missing_ids_response w request)), [])
| get_lookup_failed e :
    truthy (param request "userId") = true →
    truthy (param request "videoId") = true →
    db_select_videos w (param request "videoId") = Throw e →
    GET_run w request
      (Some (Throw e), [CallDbSelectVideos (param request "videoId")])
| get_not_found :
    truthy (param request "userId") = true →
    truthy (param request "videoId") = true →
    db_select_videos w (param request "videoId") = Ok [] →
    GET_run w request
      (Some (Ok (not_found_response w request)),
       [CallDbSelectVideos (param request "videoId")])
| get_session_failed video rest e :
    truthy (param request "userId") = true →
    truthy (param request "videoId") = true →
    db_select_videos w (param request "videoId") = Ok (video :: rest) →
    is_private video →
    getCurrentUser w = Throw e →
    GET_run w request
      (Some (Throw e),
       [CallDbSelectVideos (param request "videoId"); CallGetCurrentUser])
| get_forbidden video rest requester :
    truthy (param request "userId") = true →
    truthy (param request "videoId") = true →
    db_select_videos w (param request "videoId") = Ok (video :: rest) →
    is_private video →
    getCurrentUser w = Ok requester →
    ¬ is_owner requester video →
    GET_run w request
      (Some (Ok (forbidden_response w request)),
       [CallDbSelectVideos (param request "videoId"); CallGetCurrentUser])
| get_stream video rest r :
    truthy (param request "userId") = true →
    truthy (param request "videoId") = true →
    db_select_videos w (param request "videoId") = Ok (video :: rest) →
    granted w video →
    stream_run w request (param request "userId") (param request "videoId")
      (param request "videoType") (param request "thumbnail")
      (lookups (param request "videoId") video) r →
    GET_run w request r.

(** The world in which the video table answers [rows] to every query. *)
Definition with_videos (w : World) (rows : Result (list Video)) : World :=
  {| env := env w;
     db_select_videos := fun _ => rows;
     getCurrentUser := getCurrentUser w;
     listObjectsV2 := listObjectsV2 w;
     getSignedUrl := getSignedUrl w;
     headObject := headObject w |}.

(** The signing calls [map] issues, one for each object and in order. *)
Definition signing_calls (bucket : string) (objects : list S3Object) : Trace :=
  (fun object => CallGetSignedUrl bucket (Key object) 3600) <$> objects.

(** A metadata call for one of the objects, whose URL was signed. *)
Definition metadata_call_of (w : World) (bucket : string)
    (objects : list S3Object) (c : Call) : Prop :=
  ∃ o signed,
    c = CallHeadObject bucket (Key o)
    ∧ o ∈ objects
    ∧ getSignedUrl w bucket (Key o) 3600 = Ok signed.

(** The callbacks still waiting for their signed URL. *)
Fixpoint count_awaiting (ts : list Task) : nat :=
  match ts with
  | [] => 0
  | AwaitingSignedUrl _ :: rest => S (count_awaiting rest)
  | _ :: rest => count_awaiting rest
  end.

(** The metadata calls made since [base]: one for each callback that
    has left the signing stage, unless one was rejected. *)
Definition heads_ok (w : World) (bucket : string) (objects : list S3Object)
    (base : Trace) (s : AllState * Trace) : Prop :=
  ∃ heads,
    s.2 = base ++ heads
    ∧ Forall (metadata_call_of w bucket objects) heads
    ∧ length heads + count_awaiting (tasks s.1) ≤ length objects
    ∧ ((∀ e, outcome s.1 ≠ Some (Throw e)) →
       length heads + count_awaiting (tasks s.1) = length objects).

(** The sample store, except that its listing is refused. *)
Definition unlistable_world : World :=
  let w := sample_world JsTrue None in
  {| env := env w;
     db_select_videos := db_select_videos w;
     getCurrentUser := getCurrentUser w;
     listObjectsV2 := fun _ => Throw "SlowDown";
     getSignedUrl := getSignedUrl w;
     headObject := headObject w |}.

(** The sample store, except that the URL of one key cannot be
    signed. *)
Definition unsignable_world (broken : string) : World :=
  let w := sample_world JsTrue None in
  {| env := env w;
     db_select_videos := db_select_videos w;
     getCurrentUser := getCurrentUser w;
     listObjectsV2 := listObjectsV2 w;
     getSignedUrl := fun b key ttl =>
       if String.eqb key broken then Throw "CredentialsError"
       else getSignedUrl w b key ttl;
     headObject := headObject w |}.

(** ** Facts about [Promise.all] *)

Section PromiseAllFacts.
Variable w : World.
Variable bucket : string.
Variable objects : list S3Object.

Lemma inv_started tr : inv w bucket objects (started bucket objects tr).1.
Proof.
  split; simpl.
  - by rewrite length_fmap.
  - by rewrite length_replicate.
  - intros i o t v Ho Ht Hv.
    rewrite list_lookup_fmap, Ho in Ht. simplify_eq/=.
    apply lookup_replicate in Hv as [-> _]. done.
  - unfold outcome_ok; simpl.
    destruct (all_values (replicate (length objects) None)) as [cs|] eqn:E; simpl.
    + done.
    + split; [done|]. intros i e. rewrite list_lookup_fmap.
      by destruct (objects !! i).
Qed.

(** What [inv] gives for the callback found at index [i]. *)
Lemma inv_at st i t :
  inv w bucket objects st → tasks st !! i = Some t →
  ∃ o v, objects !! i = Some o ∧ values st !! i = Some v ∧ slot_ok w bucket o t v.
Proof.
  intros [Ht Hv Hs _] Hi.
  assert (i < length objects) as Hlt by (rewrite <- Ht; by eapply lookup_lt_Some).
  destruct (lookup_lt_is_Some_2 objects i Hlt) as [o Ho].
  destruct (lookup_lt_is_Some_2 (values st) i) as [v Hvi]; [by rewrite Hv|].
  eauto 6.
Qed.

Lemma inv_complete_pending i s :
  inv w bucket objects s.1 → inv w bucket objects (complete_pending w bucket i s).1.
Proof.
  intros Hinv. unfold complete_pending.
  destruct (outcome s.1) eqn:Hout; [done|].
  destruct (tasks s.1 !! i) as [[o'|o' signed|r]|] eqn:Hti; [| |done|done].
  - destruct (inv_at _ _ _ Hinv Hti) as (o & v & Ho & Hv & [-> ->]).
    pose proof (lookup_lt_Some _ _ _ Hti) as Hlt.
    destruct Hinv as [Hlt_t Hlt_v Hs Hoo].
    destruct (getSignedUrl w bucket (Key o) 3600) as [signed|e] eqn:Hsign; simpl.
    + split; simpl.
      * by rewrite length_insert.
      * done.
      * intros j o2 t2 v2 Ho2 Ht2 Hv2.
        rewrite list_lookup_insert in Ht2. case_decide as Hd.
        -- destruct Hd as [<- _]. simplify_eq. by simpl.
        -- eauto.
      * unfold outcome_ok in *; rewrite Hout in Hoo; simpl.
        destruct Hoo as [Hnone Hno]. split; [done|].
        intros j e. rewrite list_lookup_insert. case_decide; [done|apply Hno].
    + split; simpl.
      * by rewrite length_insert.
      * done.
      * intros j o2 t2 v2 Ho2 Ht2 Hv2.
        rewrite list_lookup_insert in Ht2. case_decide as Hd.
        -- destruct Hd as [<- _]. simplify_eq. simpl.
           split; [|done]. unfold resolve. by rewrite Hsign.
        -- eauto.
      * unfold outcome_ok; simpl. exists o. split.
        -- by eapply list_elem_of_lookup_2.
        -- unfold resolve. by rewrite Hsign.
  - destruct (inv_at _ _ _ Hinv Hti) as (o & v & Ho & Hv & [-> [Hsign ->]]).
    pose proof (lookup_lt_Some _ _ _ Hti) as Hlt.
    pose proof (lookup_lt_Some _ _ _ Hv) as Hltv.
    destruct Hinv as [Hlt_t Hlt_v Hs Hoo].
    destruct (headObject w bucket (Key o)) as [metadata|e] eqn:Hhead; simpl.
    + split; simpl.
      * by rewrite length_insert.
      * by rewrite length_insert.
      * intros j o2 t2 v2 Ho2 Ht2 Hv2.
        destruct (decide (i = j)) as [<-|Hne].
        -- rewrite list_lookup_insert_eq in Ht2 by done.
           rewrite list_lookup_insert_eq in Hv2 by done.
           simplify_eq. simpl. split; [|done].
           unfold resolve. by rewrite Hsign, Hhead.
        -- rewrite list_lookup_insert_ne in Ht2 by done.
           rewrite list_lookup_insert_ne in Hv2 by done.
           eauto.
      * unfold outcome_ok in *; rewrite Hout in Hoo; simpl.
        destruct (all_values (<[i:=_]> (values s.1))) as [cs|] eqn:E; simpl; [done|].
        destruct Hoo as [_ Hno]. split; [done|].
        intros j e. rewrite list_lookup_insert. case_decide; [done|apply Hno].
    + split; simpl.
      * by rewrite length_insert.
      * done.
      * intros j o2 t2 v2 Ho2 Ht2 Hv2.
        rewrite list_lookup_insert in Ht2. case_decide as Hd.
        -- destruct Hd as [<- _]. simplify_eq. simpl.
           split; [|done]. unfold resolve. by rewrite Hsign, Hhead.
        -- eauto.
      * unfold outcome_ok; simpl. exists o. split.
        -- by eapply list_elem_of_lookup_2.
        -- unfold resolve. by rewrite Hsign, Hhead.
Qed.

Lemma inv_drain order s :
  inv w bucket objects s.1 → inv w bucket objects (drain w bucket order s).1.
Proof.
  revert s. induction order as [|i order IH]; intros s Hs; [done|].
  simpl. apply IH. by apply inv_complete_pending.
Qed.

Lemma inv_late i s :
  (∃ e, outcome s.1 = Some (Throw e)) →
  inv w bucket objects s.1 → inv w bucket objects (late w bucket i s).1.
Proof.
  intros [rejection Hout] Hinv. unfold late.
  destruct (tasks s.1 !! i) as [[o'|o' signed|r]|] eqn:Hti; try done.
  destruct (inv_at _ _ _ Hinv Hti) as (o & v & Ho & Hv & [-> ->]).
  destruct Hinv as [Hlt_t Hlt_v Hs Hoo].
  destruct (getSignedUrl w bucket (Key o) 3600) as [signed|e] eqn:Hsign; simpl.
  - split; simpl.
    + by rewrite length_insert.
    + done.
    + intros j o2 t2 v2 Ho2 Ht2 Hv2.
      rewrite list_lookup_insert in Ht2. case_decide as Hd.
      * destruct Hd as [<- _]. simplify_eq. by simpl.
      * eauto.
    + unfold outcome_ok in *; simpl. by rewrite Hout in *.
  - split; simpl.
    + by rewrite length_insert.
    + done.
    + intros j o2 t2 v2 Ho2 Ht2 Hv2.
      rewrite list_lookup_insert in Ht2. case_decide as Hd.
      * destruct Hd as [<- _]. simplify_eq. simpl.
        split; [|done]. unfold resolve. by rewrite Hsign.
      * eauto.
    + unfold outcome_ok in *; simpl. by rewrite Hout in *.
Qed.

Lemma inv_complete i s :
  inv w bucket objects s.1 → inv w bucket objects (complete w bucket i s).1.
Proof.
  intros Hinv. unfold complete.
  destruct (outcome s.1) as [[cs|e]|] eqn:Hout.
  - by apply inv_complete_pending.
  - apply inv_late; [by exists e|done].
  - by apply inv_complete_pending.
Qed.

Lemma inv_run order s :
  inv w bucket objects s.1 → inv w bucket objects (run w bucket order s).1.
Proof.
  revert s. induction order as [|i order IH]; intros s Hs; [done|].
  simpl. apply IH. by apply inv_complete.
Qed.

(** Once [Promise.all] has settled nothing more happens in the run. *)
Lemma complete_pending_settled i s : outcome s.1 ≠ None → complete_pending w bucket i s = s.
Proof. intros H. unfold complete_pending. by destruct (outcome s.1). Qed.

Lemma drain_settled order s : outcome s.1 ≠ None → drain w bucket order s = s.
Proof.
  revert s. induction order as [|i order IH]; intros s H; [done|].
  simpl. rewrite complete_pending_settled by done. by apply IH.
Qed.

Lemma drain_app a b s :
  drain w bucket (a ++ b) s = drain w bucket b (drain w bucket a s).
Proof. apply foldl_app. Qed.

Lemma waits_at_le st i : waits_at st i ≤ 2.
Proof.
  unfold waits_at. destruct (tasks st !! i) as [[]|]; simpl; lia.
Qed.

(** A completion moves its callback one step on and leaves the others. *)
Lemma complete_pending_waits i s :
  outcome (complete_pending w bucket i s).1 = None →
  waits_at (complete_pending w bucket i s).1 i ≤ pred (waits_at s.1 i)
  ∧ ∀ j, j ≠ i → waits_at (complete_pending w bucket i s).1 j = waits_at s.1 j.
Proof.
  unfold complete_pending, waits_at.
  destruct (outcome s.1) eqn:Hout; [by rewrite Hout|].
  destruct (tasks s.1 !! i) as [[o|o signed|r]|] eqn:Hti; simpl.
  - pose proof (lookup_lt_Some _ _ _ Hti) as Hlt.
    destruct (getSignedUrl w bucket (Key o) 3600); simpl; [|done].
    intros _. split.
    + rewrite list_lookup_insert_eq by done. simpl. lia.
    + intros j Hj. by rewrite list_lookup_insert_ne.
  - pose proof (lookup_lt_Some _ _ _ Hti) as Hlt.
    destruct (headObject w bucket (Key o)); simpl; [|done].
    intros _. split.
    + rewrite list_lookup_insert_eq by done. simpl. lia.
    + intros j Hj. by rewrite list_lookup_insert_ne.
  - intros _. rewrite Hti. simpl. split; [lia|done].
  - intros _. rewrite Hti. simpl. split; [lia|done].
Qed.

Lemma drain_waits order s :
  outcome (drain w bucket order s).1 = None →
  ∀ j, waits_at (drain w bucket order s).1 j ≤ waits_at s.1 j
       ∧ (j ∈ order → waits_at (drain w bucket order s).1 j ≤ pred (waits_at s.1 j)).
Proof.
  revert s. induction order as [|i order IH]; intros s Hnone j.
  - split; [done|]. by intros ?%elem_of_nil.
  - simpl in *.
    assert (outcome (complete_pending w bucket i s).1 = None) as Hmid.
    { destruct (outcome (complete_pending w bucket i s).1) eqn:E; [|done].
      rewrite drain_settled in Hnone by (by rewrite E). congruence. }
    destruct (IH _ Hnone j) as [IH1 IH2].
    destruct (complete_pending_waits i s Hmid) as [Hi Hother].
    assert (waits_at (complete_pending w bucket i s).1 j ≤ waits_at s.1 j) as Hle.
    { destruct (decide (j = i)) as [->|Hne]; [lia|]. by rewrite Hother. }
    split; [lia|].
    intros [->|Hin]%elem_of_cons; [lia|]. specialize (IH2 Hin). lia.
Qed.

(** The callbacks only sign URLs and fetch metadata. *)
Lemma complete_pending_trace i s :
  ∃ tl, (complete_pending w bucket i s).2 = s.2 ++ tl ∧ Forall storage_call tl.
Proof.
  unfold complete_pending.
  destruct (outcome s.1); [exists []; by rewrite app_nil_r|].
  destruct (tasks s.1 !! i) as [[o|o signed|r]|];
    try (exists []; by rewrite app_nil_r).
  - destruct (getSignedUrl w bucket (Key o) 3600); simpl.
    + eexists; split; [done|]. by repeat constructor.
    + exists []; by rewrite app_nil_r.
  - destruct (headObject w bucket (Key o)); simpl;
      exists []; by rewrite app_nil_r.
Qed.

Lemma drain_trace order s :
  ∃ tl, (drain w bucket order s).2 = s.2 ++ tl ∧ Forall storage_call tl.
Proof.
  revert s. induction order as [|i order IH]; intros s; simpl.
  - exists []; by rewrite app_nil_r.
  - destruct (IH (complete_pending w bucket i s)) as (tl2 & -> & H2).
    destruct (complete_pending_trace i s) as (tl1 & -> & H1).
    exists (tl1 ++ tl2). split; [by rewrite app_assoc|]. by apply Forall_app.
Qed.

Lemma complete_trace i s :
  ∃ tl, (complete w bucket i s).2 = s.2 ++ tl ∧ Forall storage_call tl.
Proof.
  unfold complete.
  destruct (outcome s.1) as [[cs|e]|]; try apply complete_pending_trace.
  unfold late.
  destruct (tasks s.1 !! i) as [[o|o signed|r]|];
    try (exists []; by rewrite app_nil_r).
  destruct (getSignedUrl w bucket (Key o) 3600); simpl.
  - eexists; split; [done|]. by repeat constructor.
  - exists []; by rewrite app_nil_r.
Qed.

Lemma run_trace order s :
  ∃ tl, (run w bucket order s).2 = s.2 ++ tl ∧ Forall storage_call tl.
Proof.
  revert s. induction order as [|i order IH]; intros s; simpl.
  - exists []; by rewrite app_nil_r.
  - destruct (IH (complete w bucket i s)) as (tl2 & -> & H2).
    destruct (complete_trace i s) as (tl1 & -> & H1).
    exists (tl1 ++ tl2). split; [by rewrite app_assoc|]. by apply Forall_app.
Qed.

Lemma promise_all_trace schedule tr :
  ∃ tl, (promise_all_map w bucket schedule objects tr).2 = tr ++ tl
        ∧ Forall storage_call tl.
Proof.
  unfold promise_all_map; simpl.
  destruct (drain_trace (seq 0 (length objects) ++ seq 0 (length objects))
              (run w bucket schedule (started bucket objects tr)))
    as (tl2 & -> & H2).
  destruct (run_trace schedule (started bucket objects tr)) as (tl1 & -> & H1).
  simpl. eexists. split; [by rewrite <- !app_assoc|].
  apply Forall_app. split; [|by apply Forall_app].
  apply Forall_fmap, Forall_forall. by intros o _.
Qed.

(** [await Promise.all(...)] resumes, whatever the completion order. *)
Lemma promise_all_settles schedule tr :
  (promise_all_map w bucket schedule objects tr).1 ≠ None.
Proof.
  unfold promise_all_map; simpl. intros Hnone.
  set (n := length objects) in *.
  rewrite drain_app in Hnone.
  set (s1 := run w bucket schedule (started bucket objects tr)) in *.
  set (s2 := drain w bucket (seq 0 n) s1) in *.
  set (s3 := drain w bucket (seq 0 n) s2) in *.
  assert (inv w bucket objects s3.1) as Hinv
    by (do 2 apply inv_drain; apply inv_run, inv_started).
  assert (outcome s2.1 = None) as Hnone2.
  { destruct (outcome s2.1) eqn:E; [|done].
    subst s3. rewrite drain_settled in Hnone by (by rewrite E). congruence. }
  assert (∀ j, j < n → waits_at s3.1 j = 0) as Hdone.
  { intros j Hj.
    assert (j ∈ seq 0 n) as Hin by (apply elem_of_seq; lia).
    destruct (drain_waits (seq 0 n) s1 Hnone2 j) as [_ H2].
    destruct (drain_waits (seq 0 n) s2 Hnone j) as [_ H3].
    specialize (H2 Hin). specialize (H3 Hin).
    pose proof (waits_at_le s1.1 j). fold s2 in H2. fold s3 in H3. lia. }
  pose proof (inv_outcome _ Hinv) as Hoo. unfold outcome_ok in Hoo.
  rewrite Hnone in Hoo. destruct Hoo as [Hvals Hno].
  assert (is_Some (all_values (values s3.1))) as [cs Hcs]; [|congruence].
  apply mapM_is_Some, Forall_lookup. intros j v Hv. simpl.
  assert (j < n) as Hj.
  { unfold n. rewrite <- (inv_values _ Hinv). by eapply lookup_lt_Some. }
  destruct (lookup_lt_is_Some_2 (tasks s3.1) j) as [t Ht].
  { by rewrite (inv_tasks _ Hinv). }
  destruct (inv_at _ _ _ Hinv Ht) as (o & v' & Ho & Hv' & Hslot).
  specialize (Hdone j Hj). unfold waits_at in Hdone. rewrite Ht in Hdone.
  simplify_eq. destruct t as [| |[c|e]]; simpl in *; try done.
  - by destruct Hslot as [_ ->].
  - by destruct (Hno j e).
Qed.

(** Fulfilled: value [i] is what object [i] resolves to. *)
Lemma promise_all_fulfilled schedule tr cs :
  (promise_all_map w bucket schedule objects tr).1 = Some (Ok cs) →
  Forall2 (fun o c => resolve w bucket o = Ok c) objects cs.
Proof.
  unfold promise_all_map; simpl.
  set (s := drain w bucket _ _). intros Hout.
  assert (inv w bucket objects s.1) as Hinv
    by (apply inv_drain, inv_run, inv_started).
  pose proof (inv_outcome _ Hinv) as Hoo. unfold outcome_ok in Hoo.
  rewrite Hout in Hoo. apply mapM_Some in Hoo.
  apply Forall2_same_length_lookup. split.
  - rewrite <- (inv_values _ Hinv). by eapply Forall2_length.
  - intros i o c Ho Hc.
    destruct (Forall2_lookup_r _ _ _ _ _ Hoo Hc) as (v & Hv & Hid).
    simpl in Hid. subst v.
    destruct (lookup_lt_is_Some_2 (tasks s.1) i) as [t Ht].
    { rewrite (inv_tasks _ Hinv). by eapply lookup_lt_Some. }
    pose proof (inv_slot _ Hinv _ _ _ _ Ho Ht Hv) as Hslot.
    destruct t as [| |[c'|e]]; simpl in Hslot.
    + by destruct Hslot.
    + by destruct Hslot as (_ & _ & ?).
    + destruct Hslot as [? ?]. by simplify_eq.
    + by destruct Hslot.
Qed.

(** Rejected: with what one of the objects fails with. *)
Lemma promise_all_rejected schedule tr e :
  (promise_all_map w bucket schedule objects tr).1 = Some (Throw e) →
  ∃ o, o ∈ objects ∧ resolve w bucket o = Throw e.
Proof.
  unfold promise_all_map; simpl.
  set (s := drain w bucket _ _). intros Hout.
  assert (inv w bucket objects s.1) as Hinv
    by (apply inv_drain, inv_run, inv_started).
  pose proof (inv_outcome _ Hinv) as Hoo. unfold outcome_ok in Hoo.
  by rewrite Hout in Hoo.
Qed.

Lemma promise_all_ok schedule tr cs :
  Forall2 (fun o c => resolve w bucket o = Ok c) objects cs →
  (promise_all_map w bucket schedule objects tr).1 = Some (Ok cs).
Proof.
  intros Hall.
  destruct ((promise_all_map w bucket schedule objects tr).1)
    as [[cs'|e]|] eqn:E.
  - apply promise_all_fulfilled in E. do 2 f_equal.
    apply list_eq_Forall2.
    apply Forall2_same_length_lookup. split.
    + apply Forall2_length in E, Hall. congruence.
    + intros i c' c Hc' Hc.
      destruct (Forall2_lookup_r _ _ _ _ _ E Hc') as (o & Ho & H1).
      destruct (Forall2_lookup_r _ _ _ _ _ Hall Hc) as (o' & Ho' & H2).
      congruence.
  - apply promise_all_rejected in E as (o & [i Hi]%list_elem_of_lookup_1 & He).
    destruct (Forall2_lookup_l _ _ _ _ _ Hall Hi) as (c & _ & Hc). congruence.
  - by apply promise_all_settles in E.
Qed.

Lemma promise_all_fails schedule tr o e :
  o ∈ objects → resolve w bucket o = Throw e →
  ∃ e', (promise_all_map w bucket schedule objects tr).1 = Some (Throw e').
Proof.
  intros [i Hi]%list_elem_of_lookup_1 He.
  destruct ((promise_all_map w bucket schedule objects tr).1)
    as [[cs|e']|] eqn:E.
  - apply promise_all_fulfilled in E.
    destruct (Forall2_lookup_l _ _ _ _ _ E Hi) as (c & _ & Hc). congruence.
  - by exists e'.
  - by apply promise_all_settles in E.
Qed.

End PromiseAllFacts.

(** ** The runs of the [try] block *)

Section StreamFacts.
Variable w : World.
Variable schedule : list nat.
Variable request : NextRequest.
Variables userId videoId videoType thumbnail : string.

Lemma stream_spec tr :
  stream_run w request userId videoId videoType thumbnail tr
    (stream w schedule request userId videoId videoType thumbnail tr).
Proof.
  unfold stream. unfold bind at 1. unfold eval, new_S3Client.
  destruct (truthy (region (client_config w))) eqn:Hconf.
  2: { apply run_no_client. unfold client_configured. by rewrite Hconf. }
  assert (client_configured w) as Hclient by exact Hconf.
  unfold try_catch.
  destruct (switch_videoType userId videoId videoType) as [prefix|] eqn:Hsw.
  2: { by apply run_invalid_type. }
  unfold bind at 1. unfold call at 1.
  set (cmd := ListObjectsV2Command (bucket_of w) prefix thumbnail).
  destruct (listObjectsV2 w cmd) as [objects|e] eqn:Hlist.
  2: { unfold bind, call, ret; simpl. rewrite <- app_assoc.
       by apply run_listing_failed. }
  unfold bind at 1.
  destruct (promise_all_trace w (bucket_of w) (contents_or_empty objects) schedule
              (tr ++ [CallListObjectsV2 cmd])) as (calls & Htr & Hcalls).
  destruct (promise_all_map w (bucket_of w) schedule (contents_or_empty objects)
              (tr ++ [CallListObjectsV2 cmd])) as [[[cs|e]|] tr'] eqn:Hall;
    simpl in Htr; subst tr'.
  - unfold bind, call, ret; simpl. rewrite <- !app_assoc.
    eapply run_fulfilled; try done.
    eapply promise_all_fulfilled. by rewrite Hall.
  - unfold bind, call, ret; simpl. rewrite <- !app_assoc.
    destruct (promise_all_rejected w (bucket_of w) (contents_or_empty objects)
                schedule (tr ++ [CallListObjectsV2 cmd]) e) as (o & Ho & He).
    { by rewrite Hall. }
    by eapply run_rejected.
  - exfalso.
    apply (promise_all_settles w (bucket_of w) (contents_or_empty objects)
             schedule (tr ++ [CallListObjectsV2 cmd])).
    by rewrite Hall.
Qed.

End StreamFacts.

(** ** The runs of the handler *)

Lemma private_dec video : is_private video ∨ ¬ is_private video.
Proof. unfold is_private. destruct (video_public video); auto. Qed.

Lemma strict_eq_false_private video :
  strict_eq_false (video_public video) = true ↔ is_private video.
Proof. unfold is_private. by destruct (video_public video). Qed.

Lemma owner_test requester video :
  match requester with
  | None => true
  | Some u => negb (String.eqb (user_userId u) (video_ownerId video))
  end = false ↔ is_owner requester video.
Proof.
  unfold is_owner. destruct requester as [u|].
  - destruct (String.eqb_spec (user_userId u) (video_ownerId video)) as [E|E];
      simpl; split; try done.
    + eauto.
    + intros (u' & [= <-] & ?). done.
  - split; [done|]. by intros (? & ? & _).
Qed.

Lemma lookups_lookup_call videoId video : Forall lookup_call (lookups videoId video).
Proof.
  unfold lookups. destruct (strict_eq_false _); by repeat constructor.
Qed.

Section HandlerFacts.
Variable w : World.
Variable request : NextRequest.

Lemma GET_missing schedule :
  truthy (param request "userId") = false ∨ truthy (param request "videoId") = false →
  GET w schedule request [] = (Some (Ok (missing_ids_response w request)), []).
Proof.
  intros H. unfold GET.
  by destruct H as [-> | ->]; [|rewrite orb_true_r].
Qed.

Section Found.
Hypothesis Huser : truthy (param request "userId") = true.
Hypothesis Hvideo : truthy (param request "videoId") = true.

Lemma GET_lookup_failed schedule e :
  db_select_videos w (param request "videoId") = Throw e →
  GET w schedule request [] = (Some (Throw e), [CallDbSelectVideos (param request "videoId")]).
Proof.
  intros Hdb. unfold GET. rewrite Huser, Hvideo. simpl.
  unfold bind, call. by rewrite Hdb.
Qed.

Lemma GET_not_found schedule :
  db_select_videos w (param request "videoId") = Ok [] →
  GET w schedule request []
  = (Some (Ok (not_found_response w request)),
     [CallDbSelectVideos (param request "videoId")]).
Proof.
  intros Hdb. unfold GET. rewrite Huser, Hvideo. simpl.
  unfold bind, call. by rewrite Hdb.
Qed.

Lemma GET_public schedule video rest :
  db_select_videos w (param request "videoId") = Ok (video :: rest) →
  ¬ is_private video →
  GET w schedule request []
  = stream_of w schedule request [CallDbSelectVideos (param request "videoId")].
Proof.
  intros Hdb Hpub. unfold GET. rewrite Huser, Hvideo. simpl.
  unfold bind at 1. unfold call at 1. rewrite Hdb. simpl.
  destruct (strict_eq_false (video_public video)) eqn:E; [|done].
  by apply strict_eq_false_private in E.
Qed.

Lemma GET_session_failed schedule video rest e :
  db_select_videos w (param request "videoId") = Ok (video :: rest) →
  is_private video →
  getCurrentUser w = Throw e →
  GET w schedule request []
  = (Some (Throw e), [CallDbSelectVideos (param request "videoId"); CallGetCurrentUser]).
Proof.
  intros Hdb Hpriv Hsession. unfold GET. rewrite Huser, Hvideo. simpl.
  unfold bind at 1. unfold call at 1. rewrite Hdb. simpl.
  apply strict_eq_false_private in Hpriv. rewrite Hpriv.
  unfold bind, call. by rewrite Hsession.
Qed.

Lemma GET_owner schedule video rest requester :
  db_select_videos w (param request "videoId") = Ok (video :: rest) →
  is_private video →
  getCurrentUser w = Ok requester →
  is_owner requester video →
  GET w schedule request []
  = stream_of w schedule request
      [CallDbSelectVideos (param request "videoId"); CallGetCurrentUser].
Proof.
  intros Hdb Hpriv Hsession Howner. unfold GET. rewrite Huser, Hvideo. simpl.
  unfold bind at 1. unfold call at 1. rewrite Hdb. simpl.
  apply strict_eq_false_private in Hpriv. rewrite Hpriv.
  unfold bind at 1. unfold call at 1. rewrite Hsession.
  apply owner_test in Howner. by rewrite Howner.
Qed.

Lemma GET_forbidden schedule video rest requester :
  db_select_videos w (param request "videoId") = Ok (video :: rest) →
  is_private video →
  getCurrentUser w = Ok requester →
  ¬ is_owner requester video →
  GET w schedule request []
  = (Some (Ok (forbidden_response w request)),
     [CallDbSelectVideos (param request "videoId"); CallGetCurrentUser]).
Proof.
  intros Hdb Hpriv Hsession Howner. unfold GET. rewrite Huser, Hvideo. simpl.
  unfold bind at 1. unfold call at 1. rewrite Hdb. simpl.
  apply strict_eq_false_private in Hpriv. rewrite Hpriv.
  unfold bind at 1. unfold call at 1. rewrite Hsession.
  destruct (match requester with None => true | Some u => _ end) eqn:E; [done|].
  by apply owner_test in E.
Qed.

End Found.

(** Lines 110-215 throw for want of a region or answer one of the
    three responses of the [try] block. *)
Lemma stream_response schedule tr :
  ∃ r, (stream_of w schedule request tr).1 = Some r
    ∧ (r = Throw "Region is missing"
       ∨ r = Ok (invalid_type_response w request)
       ∨ (∃ cs, r = Ok (playlist_response w request (generateM3U8Playlist cs)))
       ∨ (∃ e, r = Ok (error_response w request e))).
Proof.
  unfold stream_of.
  destruct (stream_spec w schedule request (param request "userId")
              (param request "videoId") (param request "videoType")
              (param request "thumbnail") tr); simpl; eauto 8.
Qed.

Lemma stream_not_forbidden schedule tr :
  (stream_of w schedule request tr).1 ≠ Some (Ok (forbidden_response w request)).
Proof.
  destruct (stream_response schedule tr)
    as (r & -> & [->|[->|[[cs ->]|[e ->]]]]); intros [=].
Qed.

(** The [try] block makes no lookup of its own. *)
Lemma stream_trace schedule tr :
  ∃ tl, (stream_of w schedule request tr).2 = tr ++ tl
        ∧ Forall (fun c => ¬ lookup_call c) tl.
Proof.
  unfold stream_of.
  destruct (stream_spec w schedule request (param request "userId")
              (param request "videoId") (param request "videoType")
              (param request "thumbnail") tr)
    as [?|??|?????|??????? Hc ?|???????? Hc ??];
    simpl.
  - exists []. by rewrite app_nil_r.
  - exists []. by rewrite app_nil_r.
  - eexists. split; [done|]. repeat constructor; by intros [].
  - eexists. split; [done|]. constructor; [by intros []|].
    apply Forall_app; split.
    + eapply Forall_impl; [exact Hc|]. intros c Hs Hl. by destruct c.
    + repeat constructor; by intros [].
  - eexists. split; [done|]. constructor; [by intros []|].
    apply Forall_app; split.
    + eapply Forall_impl; [exact Hc|]. intros c Hs Hl. by destruct c.
    + repeat constructor; by intros [].
Qed.

(** Either the handler answers before the [try] block, having made
    lookups at most, or the video was found, the requester may see it
    and the [try] block runs. *)
Lemma GET_cases schedule :
  (Forall lookup_call (GET w schedule request []).2
   ∧ (GET w schedule request []).1 ≠ None)
  ∨ (∃ video rest,
       truthy (param request "userId") = true
       ∧ truthy (param request "videoId") = true
       ∧ db_select_videos w (param request "videoId") = Ok (video :: rest)
       ∧ granted w video
       ∧ ∀ schedule', GET w schedule' request []
           = stream_of w schedule' request (lookups (param request "videoId") video)).
Proof.
  destruct (truthy (param request "userId")) eqn:Huser.
  2: { left. rewrite GET_missing by auto. by split; [constructor|]. }
  destruct (truthy (param request "videoId")) eqn:Hvideo.
  2: { left. rewrite GET_missing by auto. by split; [constructor|]. }
  destruct (db_select_videos w (param request "videoId")) as [[|video rest]|e] eqn:Hdb.
  - left. rewrite GET_not_found by done. by split; [repeat constructor|].
  - destruct (private_dec video) as [Hpriv|Hpub].
    + destruct (getCurrentUser w) as [requester|e] eqn:Hsession.
      * destruct (match requester with
                  | None => true
                  | Some u => negb (String.eqb (user_userId u) (video_ownerId video))
                  end) eqn:Htest.
        -- left. rewrite (GET_forbidden Huser Hvideo schedule video rest requester) by
             (try done; intros Ho%owner_test; congruence).
           by split; [repeat constructor|].
        -- right. exists video, rest. apply owner_test in Htest.
           repeat split; try done.
           ++ right. eauto.
           ++ intros schedule'. unfold lookups.
              pose proof Hpriv as ->%strict_eq_false_private.
              by apply (GET_owner Huser Hvideo schedule' video rest requester).
      * left. rewrite (GET_session_failed Huser Hvideo schedule video rest e) by done.
        by split; [repeat constructor|].
    + right. exists video, rest. repeat split; try done.
      * by left.
      * intros schedule'. unfold lookups.
        destruct (strict_eq_false (video_public video)) eqn:E.
        -- by apply strict_eq_false_private in E.
        -- by apply (GET_public Huser Hvideo schedule' video rest).
  - left. rewrite (GET_lookup_failed Huser Hvideo schedule e) by done.
    by split; [repeat constructor|].
Qed.

(** The handler answers or throws, whatever the completion order: its
    promise is never left pending. *)
Lemma GET_settles schedule : (GET w schedule request []).1 ≠ None.
Proof.
  destruct (GET_cases schedule) as [[_ H]|(video & rest & _ & _ & _ & _ & Heq)];
    [done|].
  rewrite Heq.
  by destruct (stream_response schedule (lookups (param request "videoId") video))
    as (resp & -> & _).
Qed.

End HandlerFacts.

(** ** Reading a trace *)

Lemma listing_in_trace tr0 cmd calls last input :
  Forall lookup_call tr0 → Forall storage_call calls →
  (∀ i, last ≠ CallListObjectsV2 i) →
  CallListObjectsV2 input ∈ tr0 ++ [CallListObjectsV2 cmd] ++ calls ++ [last] →
  input = cmd.
Proof.
  rewrite !Forall_forall. intros H0 Hc Hlast.
  rewrite !elem_of_app, !elem_of_cons, elem_of_nil.
  intros [Hin|[[[= ->]|[]]|[Hin|[Hl|[]]]]]; try done.
  - by apply H0 in Hin.
  - by apply Hc in Hin.
  - by destruct (Hlast input).
Qed.

Lemma generate_in_trace tr0 cmd calls last urls :
  Forall lookup_call tr0 → Forall storage_call calls →
  CallGenerateM3U8Playlist urls ∈ tr0 ++ [CallListObjectsV2 cmd] ++ calls ++ [last] →
  last = CallGenerateM3U8Playlist urls.
Proof.
  rewrite !Forall_forall. intros H0 Hc.
  rewrite !elem_of_app, !elem_of_cons, elem_of_nil.
  intros [Hin|[[[=]|[]]|[Hin|[Hl|[]]]]]; try done.
  - by apply H0 in Hin.
  - by apply Hc in Hin.
Qed.

Lemma last_in_trace (tr0 l1 l2 : Trace) c : c ∈ tr0 ++ l1 ++ l2 ++ [c].
Proof. rewrite !elem_of_app, list_elem_of_singleton. auto. Qed.

Lemma session_in_trace tr0 tl :
  CallGetCurrentUser ∈ tr0 ++ tl → Forall (fun c => ¬ lookup_call c) tl →
  CallGetCurrentUser ∈ tr0.
Proof.
  rewrite Forall_forall. intros [Hin|Hin]%elem_of_app Htl; [done|].
  by destruct (Htl _ Hin).
Qed.

Section Reached.
Variable w : World.
Variable request : NextRequest.

(** A listing is issued only by the [try] block, with the client made,
    for a found video the requester may see and a track the [switch]
    knows. *)
Lemma GET_reaches_listing_client schedule input :
  CallListObjectsV2 input ∈ (GET w schedule request []).2 →
  ∃ video rest prefix,
    client_configured w
    ∧ truthy (param request "userId") = true
    ∧ truthy (param request "videoId") = true
    ∧ db_select_videos w (param request "videoId") = Ok (video :: rest)
    ∧ granted w video
    ∧ switch_videoType (param request "userId") (param request "videoId")
        (param request "videoType") = Some prefix
    ∧ input = ListObjectsV2Command (bucket_of w) prefix (param request "thumbnail")
    ∧ ∀ schedule', GET w schedule' request []
        = stream_of w schedule' request (lookups (param request "videoId") video).
Proof.
  intros Hin.
  destruct (GET_cases w request schedule)
    as [[Hall _]|(video & rest & Hu & Hv & Hdb & Hg & Heq)].
  { rewrite Forall_forall in Hall. by apply Hall in Hin. }
  rewrite Heq in Hin. unfold stream_of in Hin.
  pose proof (lookups_lookup_call (param request "videoId") video) as Hlk.
  pose proof (stream_spec w schedule request (param request "userId")
                (param request "videoId") (param request "videoType")
                (param request "thumbnail")
                (lookups (param request "videoId") video)) as Hrun.
  inversion Hrun as [Hcl Hr|Hcl Hsw Hr|prefix e Hcl Hsw Hl Hr
                    |prefix objects calls cs Hcl Hsw Hl Hc Hf Hr
                    |prefix objects calls o e Hcl Hsw Hl Hc Ho He Hr];
    rewrite <- Hr in Hin; cbn [snd] in Hin.
  - rewrite Forall_forall in Hlk. by apply Hlk in Hin.
  - rewrite Forall_forall in Hlk. by apply Hlk in Hin.
  - apply (listing_in_trace (lookups (param request "videoId") video)
             (ListObjectsV2Command (bucket_of w) prefix (param request "thumbnail"))
             [] (logged e)) in Hin; try done.
    exists video, rest, prefix. by repeat split.
  - apply (listing_in_trace (lookups (param request "videoId") video)
             (ListObjectsV2Command (bucket_of w) prefix (param request "thumbnail"))
             calls (CallGenerateM3U8Playlist cs)) in Hin; try done.
    exists video, rest, prefix. by repeat split.
  - apply (listing_in_trace (lookups (param request "videoId") video)
             (ListObjectsV2Command (bucket_of w) prefix (param request "thumbnail"))
             calls (logged e)) in Hin; try done.
    exists video, rest, prefix. by repeat split.
Qed.

Lemma GET_reaches_listing schedule input :
  CallListObjectsV2 input ∈ (GET w schedule request []).2 →
  ∃ video rest prefix,
    truthy (param request "userId") = true
    ∧ truthy (param request "videoId") = true
    ∧ db_select_videos w (param request "videoId") = Ok (video :: rest)
    ∧ granted w video
    ∧ switch_videoType (param request "userId") (param request "videoId")
        (param request "videoType") = Some prefix
    ∧ input = ListObjectsV2Command (bucket_of w) prefix (param request "thumbnail")
    ∧ ∀ schedule', GET w schedule' request []
        = stream_of w schedule' request (lookups (param request "videoId") video).
Proof.
  intros Hin.
  destruct (GET_reaches_listing_client schedule input Hin)
    as (video & rest & prefix & _ & H).
  by exists video, rest, prefix.
Qed.

(** A listing was issued: the client could be made. *)
Lemma GET_listing_configured schedule input :
  CallListObjectsV2 input ∈ (GET w schedule request []).2 → client_configured w.
Proof.
  intros Hin.
  by destruct (GET_reaches_listing_client schedule input Hin)
    as (video & rest & prefix & H & _).
Qed.

(** Once the listing has answered, the run ends in the builder or in
    the [catch] block. *)
Lemma GET_listed schedule input output :
  CallListObjectsV2 input ∈ (GET w schedule request []).2 →
  listObjectsV2 w input = Ok output →
  ∃ tr0 calls,
    Forall lookup_call tr0 ∧ Forall storage_call calls
    ∧ ((∃ cs,
          Forall2 (fun o c => resolve w (bucket_of w) o = Ok c)
            (contents_or_empty output) cs
          ∧ GET w schedule request []
            = (Some (Ok (playlist_response w request (generateM3U8Playlist cs))),
               tr0 ++ [CallListObjectsV2 input] ++ calls
                   ++ [CallGenerateM3U8Playlist cs]))
       ∨ (∃ o e,
            o ∈ contents_or_empty output
            ∧ resolve w (bucket_of w) o = Throw e
            ∧ GET w schedule request []
              = (Some (Ok (error_response w request e)),
                 tr0 ++ [CallListObjectsV2 input] ++ calls ++ [logged e]))).
Proof.
  intros Hin Hout.
  destruct (GET_reaches_listing schedule input Hin)
    as (video & rest & prefix & _ & _ & _ & _ & Hsw & -> & Heq).
  rewrite Heq. unfold stream_of.
  pose proof (stream_spec w schedule request (param request "userId")
                (param request "videoId") (param request "videoType")
                (param request "thumbnail")
                (lookups (param request "videoId") video)) as Hrun.
  exists (lookups (param request "videoId") video).
  pose proof (GET_listing_configured schedule _ Hin) as Hclient.
  inversion Hrun as [Hcl Hr|Hcl Hsw' Hr|prefix' e Hcl Hsw' Hl Hr
                    |prefix' objects calls cs Hcl Hsw' Hl Hc Hf Hr
                    |prefix' objects calls o e Hcl Hsw' Hl Hc Ho He Hr];
    [done|..];
    rewrite Hsw in Hsw'; try discriminate; injection Hsw' as <-;
    rewrite Hout in Hl; try discriminate; injection Hl as <-.
  - eexists. split; [apply lookups_lookup_call|]. split; [eassumption|].
    left. eauto.
  - eexists. split; [apply lookups_lookup_call|]. split; [eassumption|].
    right. eauto 6.
Qed.

(** The requester may see the video: the [try] block runs. *)
Lemma GET_granted schedule video rest :
  truthy (param request "userId") = true →
  truthy (param request "videoId") = true →
  db_select_videos w (param request "videoId") = Ok (video :: rest) →
  granted w video →
  GET w schedule request []
  = stream_of w schedule request (lookups (param request "videoId") video).
Proof.
  intros Hu Hv Hdb Hg. unfold lookups.
  destruct (private_dec video) as [Hpriv|Hpub].
  - destruct Hg as [Hpub|(requester & Hsession & Howner)]; [done|].
    pose proof Hpriv as ->%strict_eq_false_private.
    by apply (GET_owner w request Hu Hv schedule video rest requester).
  - destruct (strict_eq_false (video_public video)) eqn:E.
    + by apply strict_eq_false_private in E.
    + by apply (GET_public w request Hu Hv schedule video rest).
Qed.

(** Without a region the client cannot be made, and lines 110-215
    throw before the [try] block. *)
Lemma stream_unconfigured schedule tr :
  ¬ client_configured w →
  stream_of w schedule request tr = (Some (Throw "Region is missing"), tr).
Proof.
  intros Hno. unfold stream_of, stream. unfold bind at 1.
  unfold eval, new_S3Client. unfold client_configured in Hno.
  by destruct (truthy (region (client_config w))).
Qed.

Lemma stream_invalid schedule tr :
  client_configured w →
  switch_videoType (param request "userId") (param request "videoId")
    (param request "videoType") = None →
  stream_of w schedule request tr = (Some (Ok (invalid_type_response w request)), tr).
Proof.
  intros Hclient Hsw. unfold stream_of, stream. unfold bind at 1.
  unfold eval, new_S3Client. rewrite Hclient. unfold try_catch. by rewrite Hsw.
Qed.

Lemma stream_lists schedule tr prefix :
  client_configured w →
  switch_videoType (param request "userId") (param request "videoId")
    (param request "videoType") = Some prefix →
  CallListObjectsV2
    (ListObjectsV2Command (bucket_of w) prefix (param request "thumbnail"))
  ∈ (stream_of w schedule request tr).2.
Proof.
  intros Hclient Hsw. unfold stream_of.
  pose proof (stream_spec w schedule request (param request "userId")
                (param request "videoId") (param request "videoType")
                (param request "thumbnail") tr) as Hrun.
  inversion Hrun as [Hcl Hr|Hcl Hsw' Hr|prefix' e Hcl Hsw' Hl Hr
                    |prefix' objects calls cs Hcl Hsw' Hl Hc Hf Hr
                    |prefix' objects calls o e Hcl Hsw' Hl Hc Ho He Hr];
    [done|..];
    rewrite Hsw in Hsw'; try discriminate; injection Hsw' as <-;
    cbn [snd]; rewrite !elem_of_app, !elem_of_cons; auto.
Qed.

End Reached.

(** The [switch] knows three tracks. *)
Lemma switch_videoType_Some userId videoId videoType :
  is_Some (switch_videoType userId videoId videoType)
  ↔ videoType ∈ ["screen"; "video"; "audio"].
Proof.
  unfold switch_videoType. rewrite !elem_of_cons, elem_of_nil.
  destruct (String.eqb_spec videoType "screen") as [->|H1].
  { split; [auto|by eexists]. }
  destruct (String.eqb_spec videoType "video") as [->|H2].
  { split; [auto|by eexists]. }
  destruct (String.eqb_spec videoType "audio") as [->|H3].
  { split; [auto|by eexists]. }
  split; [by intros [? [=]]|]. intros [?|[?|[?|[]]]]; done.
Qed.

Lemma switch_videoType_None userId videoId videoType :
  videoType ≠ "screen" → videoType ≠ "video" → videoType ≠ "audio" →
  switch_videoType userId videoId videoType = None.
Proof.
  intros H1 H2 H3.
  destruct (switch_videoType userId videoId videoType) as [prefix|] eqn:E; [|done].
  assert (is_Some (switch_videoType userId videoId videoType)) as Hs by (by rewrite E).
  apply switch_videoType_Some in Hs.
  rewrite !elem_of_cons, elem_of_nil in Hs. by destruct Hs as [?|[?|[?|[]]]].
Qed.

(** ** The authorization decision *)

(** C1: once the video is found, the handler lets the request through
    exactly when the video is public (its flag is not [false]) or the
    requester is there and is the owner; it then runs the [try] block.
    Otherwise it answers "Video is not public" after the two lookups,
    without any storage call. *)
Theorem GET_authorization w schedule request video rest requester :
  truthy (param request "userId") = true →
  truthy (param request "videoId") = true →
  db_select_videos w (param request "videoId") = Ok (video :: rest) →
  getCurrentUser w = Ok requester →
  ((GET w schedule request []).1 ≠ Some (Ok (forbidden_response w request))
   ↔ ¬ is_private video ∨ is_owner requester video)
  ∧ (¬ is_private video ∨ is_owner requester video →
     GET w schedule request []
     = stream_of w schedule request (lookups (param request "videoId") video))
  ∧ (¬ (¬ is_private video ∨ is_owner requester video) →
     GET w schedule request []
     = (Some (Ok (forbidden_response w request)),
        [CallDbSelectVideos (param request "videoId"); CallGetCurrentUser])).
Proof.
  intros Hu Hv Hdb Hsession.
  assert (¬ is_private video ∨ is_owner requester video →
          GET w schedule request []
          = stream_of w schedule request (lookups (param request "videoId") video))
    as Hallowed.
  { intros Hok. unfold lookups.
    destruct (private_dec video) as [Hpriv|Hpub].
    - destruct Hok as [Hpub|Howner]; [done|].
      pose proof Hpriv as ->%strict_eq_false_private.
      by apply (GET_owner w request Hu Hv schedule video rest requester).
    - destruct (strict_eq_false (video_public video)) eqn:E.
      + by apply strict_eq_false_private in E.
      + by apply (GET_public w request Hu Hv schedule video rest). }
  assert (¬ (¬ is_private video ∨ is_owner requester video) →
          GET w schedule request []
          = (Some (Ok (forbidden_response w request)),
             [CallDbSelectVideos (param request "videoId"); CallGetCurrentUser]))
    as Hdenied.
  { intros Hno.
    destruct (private_dec video) as [Hpriv|Hpub]; [|by destruct Hno; left].
    apply (GET_forbidden w request Hu Hv schedule video rest requester); auto. }
  split; [|by split].
  split.
  - intros Hresp.
    destruct (private_dec video) as [Hpriv|Hpub]; [|by left].
    destruct (match requester with
              | None => true
              | Some u => negb (String.eqb (user_userId u) (video_ownerId video))
              end) eqn:Htest.
    + destruct Hresp. rewrite Hdenied; [done|].
      intros [Hpub|Ho%owner_test]; [done|congruence].
    + right. by apply owner_test.
  - intros Hok. rewrite (Hallowed Hok). apply stream_not_forbidden.
Qed.

Lemma GET_authorization_witness :
  ((GET (sample_world JsFalse (Some {| user_userId := "u2" |})) [1; 0]
      (sample_request "screen" []) []).1
     ≠ Some (Ok (forbidden_response
                   (sample_world JsFalse (Some {| user_userId := "u2" |}))
                   (sample_request "screen" [])))
   ↔ ¬ is_private (sample_video JsFalse)
     ∨ is_owner (Some {| user_userId := "u2" |}) (sample_video JsFalse))
  ∧ (¬ is_private (sample_video JsFalse)
     ∨ is_owner (Some {| user_userId := "u2" |}) (sample_video JsFalse) →
     GET (sample_world JsFalse (Some {| user_userId := "u2" |})) [1; 0]
       (sample_request "screen" []) []
     = stream_of (sample_world JsFalse (Some {| user_userId := "u2" |})) [1; 0]
         (sample_request "screen" [])
         (lookups (param (sample_request "screen" []) "videoId")
            (sample_video JsFalse)))
  ∧ (¬ (¬ is_private (sample_video JsFalse)
        ∨ is_owner (Some {| user_userId := "u2" |}) (sample_video JsFalse)) →
     GET (sample_world JsFalse (Some {| user_userId := "u2" |})) [1; 0]
       (sample_request "screen" []) []
     = (Some (Ok (forbidden_response
                    (sample_world JsFalse (Some {| user_userId := "u2" |}))
                    (sample_request "screen" []))),
        [CallDbSelectVideos (param (sample_request "screen" []) "videoId");
         CallGetCurrentUser])).
Proof.
  apply (GET_authorization
           (sample_world JsFalse (Some {| user_userId := "u2" |})) [1; 0]
           (sample_request "screen" []) (sample_video JsFalse) []
           (Some {| user_userId := "u2" |})); reflexivity.
Defined.

(** C6: when [userId] or [videoId] is missing or empty the handler
    answers "userId or videoId not supplied" at once; the trace of
    calls is empty. *)
Theorem GET_missing_ids w schedule request :
  get (searchParams request) "userId" = None
  ∨ get (searchParams request) "userId" = Some ""
  ∨ get (searchParams request) "videoId" = None
  ∨ get (searchParams request) "videoId" = Some "" →
  GET w schedule request [] = (Some (Ok (missing_ids_response w request)), []).
Proof.
  intros H. apply GET_missing. unfold param.
  destruct H as [-> | [-> | [-> | ->]]]; auto.
Qed.

Lemma GET_missing_ids_witness :
  GET (sample_world JsTrue None) []
    {| origin := "https://cap.link"; searchParams := [("userId", ""); ("videoId", "v1")] |} []
  = (Some (Ok (missing_ids_response (sample_world JsTrue None)
                 {| origin := "https://cap.link";
                    searchParams := [("userId", ""); ("videoId", "v1")] |})), []).
Proof.
  apply GET_missing_ids. right. left. reflexivity.
Defined.

(** C8: a video whose [public] flag is anything but [false] (so also
    null or undefined) is served as a public one: the handler goes from
    the lookup of the video to the [try] block, the session provider is
    not called, the answer is not "Video is not public", and it is the
    same whatever the session provider would have answered. *)
Theorem not_false_flag_is_public w schedule request video rest :
  truthy (param request "userId") = true →
  truthy (param request "videoId") = true →
  db_select_videos w (param request "videoId") = Ok (video :: rest) →
  video_public video ≠ JsFalse →
  GET w schedule request []
  = stream_of w schedule request [CallDbSelectVideos (param request "videoId")]
  ∧ (CallGetCurrentUser ∉ (GET w schedule request []).2)
  ∧ (GET w schedule request []).1 ≠ Some (Ok (forbidden_response w request))
  ∧ ∀ session,
      GET (with_session w session) schedule request [] = GET w schedule request [].
Proof.
  intros Hu Hv Hdb Hflag.
  assert (GET w schedule request []
          = stream_of w schedule request [CallDbSelectVideos (param request "videoId")])
    as Heq by (by apply (GET_public w request Hu Hv schedule video rest)).
  split; [done|]. rewrite Heq. repeat split.
  - destruct (stream_trace w request schedule
                [CallDbSelectVideos (param request "videoId")]) as (tl & -> & Htl).
    intros Hin%session_in_trace; [|done].
    by apply list_elem_of_singleton in Hin.
  - apply stream_not_forbidden.
  - intros session.
    by rewrite (GET_public (with_session w session) request Hu Hv schedule video rest).
Qed.

Lemma not_false_flag_is_public_witness :
  GET (sample_world JsNull None) [2; 0] (sample_request "screen" []) []
  = stream_of (sample_world JsNull None) [2; 0] (sample_request "screen" [])
      [CallDbSelectVideos (param (sample_request "screen" []) "videoId")]
  ∧ (CallGetCurrentUser
     ∉ (GET (sample_world JsNull None) [2; 0] (sample_request "screen" []) []).2)
  ∧ (GET (sample_world JsNull None) [2; 0] (sample_request "screen" []) []).1
    ≠ Some (Ok (forbidden_response (sample_world JsNull None)
                  (sample_request "screen" [])))
  ∧ ∀ session,
      GET (with_session (sample_world JsNull None) session) [2; 0]
        (sample_request "screen" []) []
      = GET (sample_world JsNull None) [2; 0] (sample_request "screen" []) [].
Proof.
  apply (not_false_flag_is_public (sample_world JsNull None) [2; 0]
           (sample_request "screen" []) (sample_video JsNull) []);
    [reflexivity | reflexivity | reflexivity | discriminate].
Defined.

(** ** Segment resolution *)

Section Resolution.
Variable w : World.
Variable request : NextRequest.

(** Whether the listing is reached does not depend on the schedule. *)
Lemma GET_reach_any_schedule schedule schedule' input :
  CallListObjectsV2 input ∈ (GET w schedule request []).2 →
  CallListObjectsV2 input ∈ (GET w schedule' request []).2.
Proof.
  intros Hin.
  pose proof (GET_listing_configured w request schedule input Hin) as Hclient.
  destruct (GET_reaches_listing w request schedule input Hin)
    as (video & rest & prefix & _ & _ & _ & _ & Hsw & -> & Heq).
  rewrite Heq. by apply stream_lists.
Qed.

Lemma resolved_unique (objects : list S3Object) cs cs' :
  Forall2 (fun o c => resolve w (bucket_of w) o = Ok c) objects cs →
  Forall2 (fun o c => resolve w (bucket_of w) o = Ok c) objects cs' →
  cs = cs'.
Proof.
  intros H. revert cs'. induction H as [|o c objects cs Hc _ IH]; intros cs' H'.
  - by inversion H'.
  - inversion H' as [|? c' ? cs'' Hc' Hrest]; subst. f_equal; [congruence|auto].
Qed.

Lemma resolved_all (objects : list S3Object) :
  (∀ o, o ∈ objects → ∃ c, resolve w (bucket_of w) o = Ok c) →
  ∃ cs, Forall2 (fun o c => resolve w (bucket_of w) o = Ok c) objects cs.
Proof.
  induction objects as [|o objects IH]; intros H.
  - exists []. constructor.
  - destruct (H o) as [c Hc]; [by left|].
    destruct IH as [cs Hcs]; [intros o' Ho'; apply H; by right|].
    exists (c :: cs). by constructor.
Qed.

(** Every listed object resolves: the builder is called on the values,
    in listing order. *)
Lemma GET_all_resolved schedule input output cs :
  CallListObjectsV2 input ∈ (GET w schedule request []).2 →
  listObjectsV2 w input = Ok output →
  Forall2 (fun o c => resolve w (bucket_of w) o = Ok c) (contents_or_empty output) cs →
  ∃ tr0 calls,
    Forall lookup_call tr0 ∧ Forall storage_call calls
    ∧ GET w schedule request []
      = (Some (Ok (playlist_response w request (generateM3U8Playlist cs))),
         tr0 ++ [CallListObjectsV2 input] ++ calls ++ [CallGenerateM3U8Playlist cs]).
Proof.
  intros Hin Hout Hall.
  destruct (GET_listed w request schedule input output Hin Hout)
    as (tr0 & calls & H0 & Hc & [(cs' & Hcs' & Heq)|(o & e & Ho & He & Heq)]).
  - rewrite (resolved_unique _ _ _ Hall Hcs'). eauto.
  - apply list_elem_of_lookup_1 in Ho as [i Hi].
    destruct (Forall2_lookup_l _ _ _ _ _ Hall Hi) as (c & _ & Hc'). congruence.
Qed.

(** One listed object does not resolve: the [catch] block answers. *)
Lemma GET_some_rejected schedule input output o e :
  CallListObjectsV2 input ∈ (GET w schedule request []).2 →
  listObjectsV2 w input = Ok output →
  o ∈ contents_or_empty output →
  resolve w (bucket_of w) o = Throw e →
  ∃ tr0 calls e',
    Forall lookup_call tr0 ∧ Forall storage_call calls
    ∧ GET w schedule request []
      = (Some (Ok (error_response w request e')),
         tr0 ++ [CallListObjectsV2 input] ++ calls ++ [logged e']).
Proof.
  intros Hin Hout Ho He.
  destruct (GET_listed w request schedule input output Hin Hout)
    as (tr0 & calls & H0 & Hc & [(cs' & Hcs' & Heq)|(o' & e' & Ho' & He' & Heq)]).
  - apply list_elem_of_lookup_1 in Ho as [i Hi].
    destruct (Forall2_lookup_l _ _ _ _ _ Hcs' Hi) as (c & _ & Hc'). congruence.
  - eauto 8.
Qed.

(** What the builder is called on resolves the listing, key by key. *)
Lemma GET_generated schedule input output urls :
  CallListObjectsV2 input ∈ (GET w schedule request []).2 →
  listObjectsV2 w input = Ok output →
  CallGenerateM3U8Playlist urls ∈ (GET w schedule request []).2 →
  Forall2 (fun o c => resolve w (bucket_of w) o = Ok c) (contents_or_empty output) urls.
Proof.
  intros Hin Hout Hgen.
  destruct (GET_listed w request schedule input output Hin Hout)
    as (tr0 & calls & H0 & Hc & [(cs & Hcs & Heq)|(o & e & Ho & He & Heq)]);
    rewrite Heq in Hgen; cbn [snd] in Hgen;
    apply generate_in_trace in Hgen; try done.
  by injection Hgen as <-.
Qed.

End Resolution.

(** The completion order is seen in the run: the metadata calls are
    issued in the order in which the signing calls complete. *)
Example completion_order_is_observable :
  (GET (sample_world JsTrue None) [2; 1; 0] (sample_request "screen" []) []).2
  ≠ (GET (sample_world JsTrue None) [0; 1; 2] (sample_request "screen" []) []).2.
Proof. vm_compute. discriminate. Qed.

(** C2: when the listing has answered, the sequence given to the
    manifest builder has the length of the listing and its entry [i] is
    what key [i] resolves to (its signed URL and its duration), for
    every completion order; and when every listed key resolves, every
    completion order gives the builder that same sequence. *)
Theorem listing_order_preserved w schedule request input output :
  CallListObjectsV2 input ∈ (GET w schedule request []).2 →
  listObjectsV2 w input = Ok output →
  (∀ urls,
     CallGenerateM3U8Playlist urls ∈ (GET w schedule request []).2 →
     length urls = length (contents_or_empty output)
     ∧ ∀ i o, contents_or_empty output !! i = Some o →
         ∃ c, urls !! i = Some c ∧ resolve w (bucket_of w) o = Ok c)
  ∧ (∀ cs,
       Forall2 (fun o c => resolve w (bucket_of w) o = Ok c)
         (contents_or_empty output) cs →
       ∀ schedule',
         CallGenerateM3U8Playlist cs ∈ (GET w schedule' request []).2
         ∧ (GET w schedule' request []).1
           = Some (Ok (playlist_response w request (generateM3U8Playlist cs)))).
Proof.
  intros Hin Hout. split.
  - intros urls Hgen.
    pose proof (GET_generated w request schedule input output urls Hin Hout Hgen)
      as Hcs.
    split.
    + symmetry. by eapply Forall2_length.
    + intros i o Ho. by apply (Forall2_lookup_l _ _ _ _ _ Hcs Ho).
  - intros cs Hcs schedule'.
    pose proof (GET_reach_any_schedule w request schedule schedule' input Hin) as Hin'.
    destruct (GET_all_resolved w request schedule' input output cs Hin' Hout Hcs)
      as (tr0 & calls & _ & _ & ->).
    split; [|done]. apply last_in_trace.
Qed.

(** C3: when the signing call or the metadata call of one listed key
    fails, the handler answers with the response of its [catch] block
    (status 500, "Error generating video URLs") and the manifest
    builder is not called. *)
Theorem any_failure_fails_all w schedule request input output o :
  CallListObjectsV2 input ∈ (GET w schedule request []).2 →
  listObjectsV2 w input = Ok output →
  o ∈ contents_or_empty output →
  (∃ e, getSignedUrl w (bucket_of w) (Key o) 3600 = Throw e)
  ∨ (∃ e, headObject w (bucket_of w) (Key o) = Throw e) →
  (∃ e, (GET w schedule request []).1 = Some (Ok (error_response w request e)))
  ∧ ∀ urls, CallGenerateM3U8Playlist urls ∉ (GET w schedule request []).2.
Proof.
  intros Hin Hout Ho Hfail.
  assert (∃ e, resolve w (bucket_of w) o = Throw e) as [e He].
  { unfold resolve. destruct Hfail as [[e ->]|[e ->]]; [by eexists|].
    destruct (getSignedUrl _ _ _ _); by eexists. }
  destruct (GET_some_rejected w request schedule input output o e Hin Hout Ho He)
    as (tr0 & calls & e' & H0 & Hc & ->).
  split; [by exists e'|].
  intros urls Hgen. cbn [snd] in Hgen.
  by apply generate_in_trace in Hgen.
Qed.

(** C10: when the listing answers with no key (no [Contents], or an
    empty one) the handler calls the builder on the empty sequence and
    answers its manifest with status 200 and the manifest content
    type. *)
Theorem empty_listing_succeeds w schedule request input output :
  CallListObjectsV2 input ∈ (GET w schedule request []).2 →
  listObjectsV2 w input = Ok output →
  Contents output = None ∨ Contents output = Some [] →
  (GET w schedule request []).1
  = Some (Ok {| body := BodyText (generateM3U8Playlist []);
                status := 200;
                headers := ("content-type", "application/x-mpegURL")
                           :: cors_headers w request |})
  ∧ CallGenerateM3U8Playlist [] ∈ (GET w schedule request []).2.
Proof.
  intros Hin Hout Hempty.
  assert (contents_or_empty output = []) as Hnil.
  { unfold contents_or_empty. by destruct Hempty as [-> | ->]. }
  destruct (GET_all_resolved w request schedule input output [] Hin Hout)
    as (tr0 & calls & _ & _ & ->).
  { rewrite Hnil. constructor. }
  split; [done|]. apply last_in_trace.
Qed.

Lemma listing_order_preserved_witness :
  (CallGenerateM3U8Playlist sample_chunks
   ∈ (GET (sample_world JsTrue None) [0; 0; 1; 1; 2; 2]
        (sample_request "screen" []) []).2
   ∧ (GET (sample_world JsTrue None) [0; 0; 1; 1; 2; 2]
        (sample_request "screen" []) []).1
     = Some (Ok (playlist_response (sample_world JsTrue None)
                   (sample_request "screen" [])
                   (generateM3U8Playlist sample_chunks))))
  ∧ (CallGenerateM3U8Playlist sample_chunks
     ∈ (GET (sample_world JsTrue None) [2; 1; 2; 0]
          (sample_request "screen" []) []).2
     ∧ (GET (sample_world JsTrue None) [2; 1; 2; 0]
          (sample_request "screen" []) []).1
       = Some (Ok (playlist_response (sample_world JsTrue None)
                     (sample_request "screen" [])
                     (generateM3U8Playlist sample_chunks)))).
Proof.
  assert (CallListObjectsV2 (sample_listing "")
          ∈ (GET (sample_world JsTrue None) [2; 1; 2; 0; 1; 0]
               (sample_request "screen" []) []).2) as Hin.
  { vm_compute. repeat constructor. }
  destruct (listing_order_preserved (sample_world JsTrue None) [2; 1; 2; 0; 1; 0]
              (sample_request "screen" []) (sample_listing "")
              {| Contents := Some sample_keys |} Hin eq_refl) as [_ Hany].
  assert (Forall2 (fun o c => resolve (sample_world JsTrue None)
                                (bucket_of (sample_world JsTrue None)) o = Ok c)
            (contents_or_empty {| Contents := Some sample_keys |}) sample_chunks)
    as Hall by (repeat constructor).
  split; apply (Hany sample_chunks Hall).
Defined.

Lemma any_failure_fails_all_witness :
  (∃ e, (GET (broken_world "u1/v1/screen/b.ts") [2; 2; 1; 0]
           (sample_request "screen" []) []).1
        = Some (Ok (error_response (broken_world "u1/v1/screen/b.ts")
                      (sample_request "screen" []) e)))
  ∧ ∀ urls,
      CallGenerateM3U8Playlist urls
      ∉ (GET (broken_world "u1/v1/screen/b.ts") [2; 2; 1; 0]
           (sample_request "screen" []) []).2.
Proof.
  apply (any_failure_fails_all (broken_world "u1/v1/screen/b.ts") [2; 2; 1; 0]
           (sample_request "screen" []) (sample_listing "")
           {| Contents := Some sample_keys |} {| Key := "u1/v1/screen/b.ts" |}).
  - vm_compute. repeat constructor.
  - reflexivity.
  - vm_compute. repeat constructor.
  - right. exists "AccessDenied". reflexivity.
Defined.

Lemma empty_listing_succeeds_witness :
  (GET (sample_world JsTrue None) [0] (sample_request "video" []) []).1
  = Some (Ok {| body := BodyText (generateM3U8Playlist []);
                status := 200;
                headers := ("content-type", "application/x-mpegURL")
                           :: cors_headers (sample_world JsTrue None)
                                (sample_request "video" []) |})
  ∧ CallGenerateM3U8Playlist []
    ∈ (GET (sample_world JsTrue None) [0] (sample_request "video" []) []).2.
Proof.
  apply (empty_listing_succeeds (sample_world JsTrue None) [0]
           (sample_request "video" [])
           (ListObjectsV2Command "capso" "u1/v1/video/" "")
           {| Contents := Some [] |}).
  - vm_compute. repeat constructor.
  - reflexivity.
  - right. reflexivity.
Defined.

(** ** Durations *)

Lemma duration_of_absent metadata :
  Metadata metadata = None
  ∨ (∃ m, Metadata metadata = Some m ∧ m !! "duration" = None) →
  duration_of metadata = "".
Proof.
  unfold duration_of. intros [->|(m & -> & ->)]; done.
Qed.

Lemma duration_of_present metadata (m : gmap string string) d :
  Metadata metadata = Some m → m !! "duration" = Some d →
  duration_of metadata = d.
Proof. unfold duration_of. by intros -> ->. Qed.

Lemma truthy_nonempty s : s ≠ "" → truthy s = true.
Proof. intros H. unfold truthy. by apply negb_true_iff, String.eqb_neq. Qed.

(** C4: when the listing answers the keys [objects] and every one of
    them is signed and its metadata fetched, the handler answers 200
    and calls [generateM3U8Playlist] once, on one value for each key,
    in order.  The value of a key whose metadata has no [duration]
    field is the signed URL with the empty duration (the resolution
    does not fail), and its manifest entry has the duration 0; the
    value of a key whose metadata has a non-empty [duration] carries
    it, and so does its entry. *)
Theorem missing_duration_falls_back w schedule request input output objects :
  CallListObjectsV2 input ∈ (GET w schedule request []).2 →
  listObjectsV2 w input = Ok output →
  Contents output = Some objects →
  (∀ o, o ∈ objects →
     ∃ signed metadata,
       getSignedUrl w (bucket_of w) (Key o) 3600 = Ok signed
       ∧ headObject w (bucket_of w) (Key o) = Ok metadata) →
  ∃ cs,
    (GET w schedule request []).1
    = Some (Ok (playlist_response w request (generateM3U8Playlist cs)))
    ∧ CallGenerateM3U8Playlist cs ∈ (GET w schedule request []).2
    ∧ (∀ urls,
         CallGenerateM3U8Playlist urls ∈ (GET w schedule request []).2 →
         urls = cs)
    ∧ length cs = length objects
    ∧ length (manifest_entries cs) = length objects
    ∧ ∀ i o signed metadata,
        objects !! i = Some o →
        getSignedUrl w (bucket_of w) (Key o) 3600 = Ok signed →
        headObject w (bucket_of w) (Key o) = Ok metadata →
        (Metadata metadata = None
         ∨ (∃ m, Metadata metadata = Some m ∧ m !! "duration" = None) →
         cs !! i = Some {| url := signed; duration := "" |}
         ∧ manifest_entries cs !! i
           = Some {| entry_duration := "0"; entry_url := signed |})
        ∧ (∀ (m : gmap string string) d,
             Metadata metadata = Some m → m !! "duration" = Some d → d ≠ "" →
             cs !! i = Some {| url := signed; duration := d |}
             ∧ manifest_entries cs !! i
               = Some {| entry_duration := d; entry_url := signed |}).
Proof.
  intros Hin Hout Hcontents Hall.
  assert (contents_or_empty output = objects) as Hobjects.
  { unfold contents_or_empty. by rewrite Hcontents. }
  destruct (resolved_all w objects) as [cs Hcs].
  { intros o Ho. destruct (Hall o Ho) as (signed & metadata & Hs & Hm).
    unfold resolve. rewrite Hs, Hm. by eexists. }
  exists cs.
  assert (Forall2 (fun o c => resolve w (bucket_of w) o = Ok c)
            (contents_or_empty output) cs) as Hcs' by by rewrite Hobjects.
  pose proof (GET_generated w request schedule input output) as Hgen.
  destruct (GET_all_resolved w request schedule input output cs Hin Hout Hcs')
    as (tr0 & calls & _ & _ & Heq).
  split; [by rewrite Heq|]. split; [rewrite Heq; apply last_in_trace|].
  split.
  { intros urls Hurls. eapply resolved_unique; [|exact Hcs'].
    by apply (Hgen urls Hin Hout). }
  split; [symmetry; by eapply Forall2_length|].
  split.
  { unfold manifest_entries. rewrite length_fmap. symmetry.
    by eapply Forall2_length. }
  intros i o signed metadata Ho Hs Hm.
  destruct (Forall2_lookup_l _ _ _ _ _ Hcs Ho) as (c & Hc & Hres).
  unfold resolve in Hres. rewrite Hs, Hm in Hres. injection Hres as <-.
  unfold manifest_entries. rewrite list_lookup_fmap, Hc. simpl.
  unfold manifest_entry; simpl. split.
  - intros Habsent. by rewrite (duration_of_absent _ Habsent).
  - intros m d Hmeta Hd Hne.
    rewrite (duration_of_present _ _ _ Hmeta Hd).
    by rewrite (truthy_nonempty _ Hne).
Qed.

Lemma missing_duration_falls_back_witness :
  ∃ cs,
    (GET (sample_world JsTrue None) [1; 1; 0] (sample_request "screen" []) []).1
    = Some (Ok (playlist_response (sample_world JsTrue None)
                  (sample_request "screen" []) (generateM3U8Playlist cs)))
    ∧ CallGenerateM3U8Playlist cs
      ∈ (GET (sample_world JsTrue None) [1; 1; 0]
           (sample_request "screen" []) []).2
    ∧ (∀ urls,
         CallGenerateM3U8Playlist urls
         ∈ (GET (sample_world JsTrue None) [1; 1; 0]
              (sample_request "screen" []) []).2 →
         urls = cs)
    ∧ length cs = length sample_keys
    ∧ length (manifest_entries cs) = length sample_keys
    ∧ ∀ i o signed metadata,
        sample_keys !! i = Some o →
        getSignedUrl (sample_world JsTrue None)
          (bucket_of (sample_world JsTrue None)) (Key o) 3600 = Ok signed →
        headObject (sample_world JsTrue None)
          (bucket_of (sample_world JsTrue None)) (Key o) = Ok metadata →
        (Metadata metadata = None
         ∨ (∃ m, Metadata metadata = Some m ∧ m !! "duration" = None) →
         cs !! i = Some {| url := signed; duration := "" |}
         ∧ manifest_entries cs !! i
           = Some {| entry_duration := "0"; entry_url := signed |})
        ∧ (∀ (m : gmap string string) d,
             Metadata metadata = Some m → m !! "duration" = Some d → d ≠ "" →
             cs !! i = Some {| url := signed; duration := d |}
             ∧ manifest_entries cs !! i
               = Some {| entry_duration := d; entry_url := signed |}).
Proof.
  apply (missing_duration_falls_back (sample_world JsTrue None) [1; 1; 0]
           (sample_request "screen" []) (sample_listing "")
           {| Contents := Some sample_keys |} sample_keys).
  - vm_compute. repeat constructor.
  - reflexivity.
  - reflexivity.
  - intros o Ho. unfold sample_keys in Ho.
    rewrite !elem_of_cons, elem_of_nil in Ho.
    destruct Ho as [-> | [-> | [-> | []]]]; eexists _, _; split; reflexivity.
Defined.

(** In the sample store the key [b] has metadata without a [duration]
    field: the builder is called on its signed URL with the empty
    duration, between the values of [a] and [c]. *)
Example missing_duration_in_sample_store :
  ∃ a b c,
    sample_chunks = [a; b; c]
    ∧ duration b = ""
    ∧ duration a ≠ "" ∧ duration c ≠ ""
    ∧ CallGenerateM3U8Playlist [a; b; c]
      ∈ (GET (sample_world JsTrue None) [1; 1; 0; 2; 2; 0]
           (sample_request "screen" []) []).2.
Proof.
  eexists _, _, _. split; [reflexivity|].
  split; [reflexivity|]. split; [discriminate|]. split; [discriminate|].
  vm_compute. repeat constructor.
Qed.

(** ** Thumbnail mode *)

(** C9: the listing is capped to one key exactly when the [thumbnail]
    parameter is a non-empty string, whatever the string ("false" and
    "0" as well); it is not capped exactly when the parameter is absent
    or empty. *)
Theorem thumbnail_flag_truthiness w schedule request input :
  CallListObjectsV2 input ∈ (GET w schedule request []).2 →
  (list_MaxKeys input = Some 1
   ↔ ∃ s, get (searchParams request) "thumbnail" = Some s ∧ s ≠ "")
  ∧ (list_MaxKeys input = None
     ↔ get (searchParams request) "thumbnail" = None
       ∨ get (searchParams request) "thumbnail" = Some "").
Proof.
  intros Hin.
  destruct (GET_reaches_listing w request schedule input Hin)
    as (video & rest & prefix & _ & _ & _ & _ & _ & -> & _).
  unfold ListObjectsV2Command, param; simpl.
  destruct (get (searchParams request) "thumbnail") as [s|]; simpl.
  - destruct (String.eqb_spec s "") as [->|Hne]; simpl.
    + split; split; try done; [by intros (s & [= <-] & ?)|auto].
    + rewrite !(truthy_nonempty _ Hne). split; split; try done.
      * eauto.
      * by intros [[=]|[= ->]].
  - split; split; try done; [by intros (s & [=] & ?)|auto].
Qed.

Lemma thumbnail_flag_truthiness_witness :
  (list_MaxKeys (sample_listing "false") = Some 1
   ↔ ∃ s, get (searchParams (sample_request "screen" [("thumbnail", "false")]))
            "thumbnail" = Some s ∧ s ≠ "")
  ∧ (list_MaxKeys (sample_listing "false") = None
     ↔ get (searchParams (sample_request "screen" [("thumbnail", "false")]))
         "thumbnail" = None
       ∨ get (searchParams (sample_request "screen" [("thumbnail", "false")]))
           "thumbnail" = Some "").
Proof.
  apply (thumbnail_flag_truthiness (sample_world JsTrue None) []
           (sample_request "screen" [("thumbnail", "false")])
           (sample_listing "false")).
  vm_compute. repeat constructor.
Defined.

Lemma store_world_honours_MaxKeys e rows session objs :
  honours_MaxKeys (store_world e rows session objs).
Proof.
  intros input n stored Hn [= <-]. eexists. split; [done|].
  unfold contents_or_empty, store_list; simpl. by rewrite Hn.
Qed.

(** C5: with the thumbnail flag set the listing is issued with
    [MaxKeys] 1; on a store that cuts a listing to its [MaxKeys], and
    however many keys are stored under the prefix, the listing then
    answers one key at most, and when at least one key is stored and the
    first one resolves, the builder is called on that one value and the
    manifest answered has one entry.  Without the flag the listing is
    issued without [MaxKeys] and the builder gets one value for each
    listed key. *)
Theorem thumbnail_caps_listing w schedule request input :
  CallListObjectsV2 input ∈ (GET w schedule request []).2 →
  (truthy (param request "thumbnail") = true →
   list_MaxKeys input = Some 1
   ∧ (honours_MaxKeys w →
      ∀ stored,
        listObjectsV2 w (uncapped input) = Ok stored →
        (∃ capped,
           listObjectsV2 w input = Ok capped
           ∧ length (contents_or_empty capped) ≤ 1)
        ∧ ∀ first more c,
            contents_or_empty stored = first :: more →
            resolve w (bucket_of w) first = Ok c →
            CallGenerateM3U8Playlist [c] ∈ (GET w schedule request []).2
            ∧ (GET w schedule request []).1
              = Some (Ok (playlist_response w request (generateM3U8Playlist [c])))
            ∧ length (manifest_entries [c]) = 1))
  ∧ (truthy (param request "thumbnail") = false →
     list_MaxKeys input = None
     ∧ ∀ output urls,
         listObjectsV2 w input = Ok output →
         CallGenerateM3U8Playlist urls ∈ (GET w schedule request []).2 →
         length urls = length (contents_or_empty output)).
Proof.
  intros Hin.
  destruct (GET_reaches_listing w request schedule input Hin)
    as (video & rest & prefix & _ & _ & _ & _ & _ & Hinput & _).
  split.
  - intros Hflag.
    assert (list_MaxKeys input = Some 1) as Hcap.
    { rewrite Hinput. unfold ListObjectsV2Command; simpl. by rewrite Hflag. }
    split; [done|].
    intros Hstore stored Hstored.
    destruct (Hstore input 1 stored Hcap Hstored) as (capped & Hlist & Hcut).
    split.
    { exists capped. split; [done|]. rewrite Hcut, length_take. lia. }
    intros first more c Hfirst Hc.
    rewrite Hfirst in Hcut. simpl in Hcut.
    destruct (GET_all_resolved w request schedule input capped [c] Hin Hlist)
      as (tr0 & calls & _ & _ & ->).
    { rewrite Hcut. by repeat constructor. }
    split; [apply last_in_trace|]. by split.
  - intros Hflag. split.
    { rewrite Hinput. unfold ListObjectsV2Command; simpl. by rewrite Hflag. }
    intros output urls Hout Hgen. symmetry.
    eapply Forall2_length.
    by apply (GET_generated w request schedule input output urls).
Qed.

Lemma thumbnail_caps_listing_witness :
  list_MaxKeys (sample_listing "1") = Some 1
  ∧ CallGenerateM3U8Playlist [sample_first]
    ∈ (GET (sample_world JsTrue None) [0; 0]
         (sample_request "screen" [("thumbnail", "1")]) []).2
  ∧ (GET (sample_world JsTrue None) [0; 0]
       (sample_request "screen" [("thumbnail", "1")]) []).1
    = Some (Ok (playlist_response (sample_world JsTrue None)
                  (sample_request "screen" [("thumbnail", "1")])
                  (generateM3U8Playlist [sample_first])))
  ∧ length (manifest_entries [sample_first]) = 1.
Proof.
  assert (CallListObjectsV2 (sample_listing "1")
          ∈ (GET (sample_world JsTrue None) [0; 0]
               (sample_request "screen" [("thumbnail", "1")]) []).2) as Hin.
  { vm_compute. repeat constructor. }
  destruct (thumbnail_caps_listing (sample_world JsTrue None) [0; 0]
              (sample_request "screen" [("thumbnail", "1")]) (sample_listing "1") Hin)
    as [Hset _].
  destruct (Hset eq_refl) as [Hcap Hstore].
  split; [exact Hcap|].
  destruct (Hstore (store_world_honours_MaxKeys _ _ _ _)
              {| Contents := Some sample_keys |} eq_refl) as [_ Hone].
  exact (Hone {| Key := "u1/v1/screen/a.ts" |}
           [ {| Key := "u1/v1/screen/b.ts" |}; {| Key := "u1/v1/screen/c.ts" |} ]
           sample_first eq_refl eq_refl).
Defined.

(** ** Every way through the handler *)

Lemma GET_spec w schedule request :
  GET_run w request (GET w schedule request []).
Proof.
  destruct (truthy (param request "userId")) eqn:Huser.
  2: { rewrite GET_missing by auto. apply get_missing_ids. auto. }
  destruct (truthy (param request "videoId")) eqn:Hvideo.
  2: { rewrite GET_missing by auto. apply get_missing_ids. auto. }
  destruct (db_select_videos w (param request "videoId")) as [[|video rest]|e] eqn:Hdb.
  - rewrite GET_not_found by done. by apply get_not_found.
  - destruct (private_dec video) as [Hpriv|Hpub].
    + destruct (getCurrentUser w) as [requester|e] eqn:Hsession.
      * destruct (match requester with
                  | None => true
                  | Some u => negb (String.eqb (user_userId u) (video_ownerId video))
                  end) eqn:Htest.
        -- assert (¬ is_owner requester video) as Hno
             by (intros Ho%owner_test; congruence).
           rewrite (GET_forbidden w request Huser Hvideo schedule video rest requester)
             by done.
           by eapply get_forbidden.
        -- apply owner_test in Htest.
           assert (granted w video) as Hg by (right; eauto).
           rewrite (GET_granted w request schedule video rest) by done.
           eapply get_stream; try done. apply stream_spec.
      * rewrite (GET_session_failed w request Huser Hvideo schedule video rest e)
          by done.
        by eapply get_session_failed.
    + assert (granted w video) as Hg by (by left).
      rewrite (GET_granted w request schedule video rest) by done.
      eapply get_stream; try done. apply stream_spec.
  - rewrite (GET_lookup_failed w request Huser Hvideo schedule e) by done.
    by apply get_lookup_failed.
Qed.

(** ** The invalid track *)

(** C7: with a track that is none of screen, video and audio, an
    unknown video is still answered "Video does not exist" and a
    private video with a requester who is not the owner "Video is not
    public".  Once the video is found and the requester may see it the
    storage client is made, before the [switch]: with a region the
    answer is "Invalid video type", without one the handler throws
    "Region is missing".  "Invalid video type" is answered only then:
    after the lookup and the ownership check, which are all the calls
    made.  A listing is issued exactly for the three tracks, on a found
    video the requester may see, with a client that could be made. *)
Theorem invalid_selector_checked_last w schedule request :
  truthy (param request "userId") = true →
  truthy (param request "videoId") = true →
  (param request "videoType" ≠ "screen" →
   param request "videoType" ≠ "video" →
   param request "videoType" ≠ "audio" →
   (db_select_videos w (param request "videoId") = Ok [] →
    GET w schedule request []
    = (Some (Ok (not_found_response w request)),
       [CallDbSelectVideos (param request "videoId")]))
   ∧ (∀ video rest requester,
        db_select_videos w (param request "videoId") = Ok (video :: rest) →
        is_private video →
        getCurrentUser w = Ok requester →
        ¬ is_owner requester video →
        GET w schedule request []
        = (Some (Ok (forbidden_response w request)),
           [CallDbSelectVideos (param request "videoId"); CallGetCurrentUser]))
   ∧ (∀ video rest,
        db_select_videos w (param request "videoId") = Ok (video :: rest) →
        granted w video →
        (client_configured w →
         GET w schedule request []
         = (Some (Ok (invalid_type_response w request)),
            lookups (param request "videoId") video))
        ∧ (¬ client_configured w →
           GET w schedule request []
           = (Some (Throw "Region is missing"),
              lookups (param request "videoId") video))))
  ∧ ((GET w schedule request []).1
     = Some (Ok (invalid_type_response w request)) →
     (param request "videoType" ∉ ["screen"; "video"; "audio"])
     ∧ client_configured w
     ∧ ∃ video rest,
         db_select_videos w (param request "videoId") = Ok (video :: rest)
         ∧ granted w video
         ∧ (GET w schedule request []).2
           = lookups (param request "videoId") video)
  ∧ ((∃ input, CallListObjectsV2 input ∈ (GET w schedule request []).2)
     ↔ param request "videoType" ∈ ["screen"; "video"; "audio"]
       ∧ client_configured w
       ∧ ∃ video rest,
           db_select_videos w (param request "videoId") = Ok (video :: rest)
           ∧ granted w video).
Proof.
  intros Hu Hv. split; [|split].
  - intros H1 H2 H3. repeat split.
    + by apply GET_not_found.
    + intros video rest requester. by apply GET_forbidden.
    + intros Hclient.
      rewrite (GET_granted w request schedule video rest) by done.
      apply stream_invalid; [done|]. by apply switch_videoType_None.
    + intros Hno.
      rewrite (GET_granted w request schedule video rest) by done.
      by apply stream_unconfigured.
  - pose proof (GET_spec w schedule request) as Hrun. revert Hrun.
    generalize (GET w schedule request []). intros r Hrun Hresp.
    destruct Hrun as [?|e ???|???|video rest e ?????|video rest requester ??????
                     |video rest r ? ? Hdb Hg Hs]; simpl in Hresp;
      try discriminate Hresp.
    destruct Hs as [?|Hclient Hsw|prefix e ???|prefix objects calls cs ?????
                   |prefix objects calls o e ??????]; simpl in Hresp;
      try discriminate Hresp.
    split; [|split; [done|by exists video, rest]].
    intros Hin.
    apply (switch_videoType_Some (param request "userId")
             (param request "videoId")) in Hin as [prefix Hprefix].
    congruence.
  - split.
    + intros [input Hin].
      pose proof (GET_listing_configured w request schedule input Hin) as Hclient.
      destruct (GET_reaches_listing w request schedule input Hin)
        as (video & rest & prefix & _ & _ & Hdb & Hg & Hsw & _).
      split; [|split; [done|eauto]].
      eapply switch_videoType_Some. by rewrite Hsw.
    + intros (Hvt & Hclient & video & rest & Hdb & Hg).
      apply (switch_videoType_Some (param request "userId")
               (param request "videoId")) in Hvt as [prefix Hsw].
      eexists. rewrite (GET_granted w request schedule video rest) by done.
      by apply stream_lists.
Qed.

Lemma invalid_selector_checked_last_witness :
  GET (sample_world JsFalse None) [] (sample_request "scren" []) []
  = (Some (Ok (forbidden_response (sample_world JsFalse None)
                 (sample_request "scren" []))),
     [CallDbSelectVideos "v1"; CallGetCurrentUser])
  ∧ GET (sample_world JsTrue None) [] (sample_request "scren" []) []
    = (Some (Ok (invalid_type_response (sample_world JsTrue None)
                   (sample_request "scren" []))),
       [CallDbSelectVideos "v1"])
  ∧ GET (sample_world JsTrue None) []
      {| origin := "https://cap.link";
         searchParams := [("userId", "u1"); ("videoId", "v9"); ("videoType", "scren")] |} []
    = (Some (Ok (not_found_response (sample_world JsTrue None)
                   {| origin := "https://cap.link";
                      searchParams :=
                        [("userId", "u1"); ("videoId", "v9"); ("videoType", "scren")] |})),
       [CallDbSelectVideos "v9"]).
Proof.
  split; [|split].
  - destruct (invalid_selector_checked_last (sample_world JsFalse None) []
                (sample_request "scren" []) eq_refl eq_refl) as [Hinvalid _].
    destruct Hinvalid as (_ & Hforbidden & _); [discriminate..|].
    apply (Hforbidden (sample_video JsFalse) [] None);
      [reflexivity | reflexivity | reflexivity |].
    by intros (u & [=] & _).
  - destruct (invalid_selector_checked_last (sample_world JsTrue None) []
                (sample_request "scren" []) eq_refl eq_refl) as [Hinvalid _].
    destruct Hinvalid as (_ & _ & Hlate); [discriminate..|].
    destruct (Hlate (sample_video JsTrue) []) as [Hanswer _];
      [reflexivity | left; discriminate |].
    apply Hanswer. reflexivity.
  - destruct (invalid_selector_checked_last (sample_world JsTrue None) []
                {| origin := "https://cap.link";
                   searchParams :=
                     [("userId", "u1"); ("videoId", "v9"); ("videoType", "scren")] |}
                eq_refl eq_refl) as [Hinvalid _].
    destruct Hinvalid as (Hunknown & _ & _); [discriminate..|].
    apply Hunknown. reflexivity.
Defined.

(** Without [CAP_AWS_REGION] the same request, on a video the
    requester may see, is not answered: the handler throws before the
    [switch] is reached. *)
Example invalid_selector_without_region :
  GET (store_world
         {| NEXT_PUBLIC_URL := Some "https://cap.so";
            CAP_AWS_REGION := None;
            CAP_AWS_ACCESS_KEY := None;
            CAP_AWS_SECRET_KEY := None;
            CAP_AWS_BUCKET := Some "capso" |}
         [sample_video JsTrue] None sample_objects)
    [] (sample_request "scren" []) []
  = (Some (Throw "Region is missing"), [CallDbSelectVideos "v1"]).
Proof. reflexivity. Qed.

(** ** The calls of [Promise.all] *)

Lemma count_awaiting_insert (ts : list Task) i old new :
  ts !! i = Some old →
  count_awaiting (<[i := new]> ts) + count_awaiting [old]
  = count_awaiting ts + count_awaiting [new].
Proof.
  revert i. induction ts as [|t ts IH]; intros i Hi; [done|].
  destruct i as [|i]; simpl in *.
  - injection Hi as ->. destruct old, new; simpl; lia.
  - specialize (IH i Hi). destruct t; simpl; lia.
Qed.

Lemma count_awaiting_fmap (objects : list S3Object) :
  count_awaiting (AwaitingSignedUrl <$> objects) = length objects.
Proof. induction objects; simpl; [done|]. by f_equal. Qed.

Lemma count_awaiting_none (ts : list Task) :
  (∀ i t, ts !! i = Some t → waits t ≠ 2) → count_awaiting ts = 0.
Proof.
  induction ts as [|t ts IH]; intros H; [done|].
  pose proof (H 0 t eq_refl) as H0.
  destruct t; simpl in *; try done; apply IH; intros i t' Hi; apply (H (S i)); done.
Qed.

Section PromiseAllCalls.
Variable w : World.
Variable bucket : string.
Variable objects : list S3Object.

Lemma heads_ok_complete_pending base i s :
  inv w bucket objects s.1 →
  heads_ok w bucket objects base s →
  heads_ok w bucket objects base (complete_pending w bucket i s).
Proof.
  intros Hinv Hok. pose proof Hok as (heads & Htr & Hheads & Hle & Heq).
  unfold complete_pending.
  destruct (outcome s.1) eqn:Hout; [done|].
  destruct (tasks s.1 !! i) as [[o'|o' signed|r]|] eqn:Hti; [| |done|done].
  - destruct (inv_at _ _ _ _ _ _ Hinv Hti) as (o & v & Ho & Hv & [-> ->]).
    destruct (getSignedUrl w bucket (Key o) 3600) as [signed|e] eqn:Hsign; simpl.
    + exists (heads ++ [CallHeadObject bucket (Key o)]).
      pose proof (count_awaiting_insert (tasks s.1) i _
                    (AwaitingMetadata o signed) Hti) as Hc.
      simpl in Hc. rewrite length_app; simpl.
      split; [by rewrite Htr, app_assoc|]. split.
      * apply Forall_app. split; [done|]. constructor; [|done].
        exists o, signed. split; [done|]. split; [|done].
        by eapply list_elem_of_lookup_2.
      * split; [lia|]. intros _.
        assert (length heads + count_awaiting (tasks s.1) = length objects)
          by (apply Heq; intros e; rewrite ?Hout; done).
        lia.
    + exists heads.
      pose proof (count_awaiting_insert (tasks s.1) i _
                    (Settled (Throw e)) Hti) as Hc.
      simpl in Hc. unfold reject, fulfil; simpl. split; [done|]. split; [done|].
      split; [lia|]. intros Hno. by destruct (Hno e).
  - destruct (headObject w bucket (Key o')) as [metadata|e]; simpl.
    + exists heads.
      pose proof (count_awaiting_insert (tasks s.1) i _
                    (Settled (Ok {| url := signed; duration := duration_of metadata |}))
                    Hti) as Hc.
      simpl in Hc. unfold reject, fulfil; simpl. split; [done|]. split; [done|].
      split; [lia|]. intros _.
      assert (length heads + count_awaiting (tasks s.1) = length objects)
        by (apply Heq; intros e; rewrite ?Hout; done).
      lia.
    + exists heads.
      pose proof (count_awaiting_insert (tasks s.1) i _
                    (Settled (Throw e)) Hti) as Hc.
      simpl in Hc. unfold reject, fulfil; simpl. split; [done|]. split; [done|].
      split; [lia|]. intros Hno. by destruct (Hno e).
Qed.

Lemma heads_ok_drain base order s :
  inv w bucket objects s.1 →
  heads_ok w bucket objects base s →
  heads_ok w bucket objects base (drain w bucket order s).
Proof.
  revert s. induction order as [|i order IH]; intros s Hinv Hok; [done|].
  simpl. apply IH; [by apply inv_complete_pending|by apply heads_ok_complete_pending].
Qed.

Lemma heads_ok_late base i s :
  (∃ e, outcome s.1 = Some (Throw e)) →
  inv w bucket objects s.1 →
  heads_ok w bucket objects base s →
  heads_ok w bucket objects base (late w bucket i s).
Proof.
  intros [rejection Hout] Hinv Hok.
  pose proof Hok as (heads & Htr & Hheads & Hle & Heq).
  unfold late.
  destruct (tasks s.1 !! i) as [[o'|o' signed|r]|] eqn:Hti; try done.
  destruct (inv_at _ _ _ _ _ _ Hinv Hti) as (o & v & Ho & Hv & [-> ->]).
  destruct (getSignedUrl w bucket (Key o) 3600) as [signed|e] eqn:Hsign; simpl.
  - exists (heads ++ [CallHeadObject bucket (Key o)]).
    pose proof (count_awaiting_insert (tasks s.1) i _
                  (AwaitingMetadata o signed) Hti) as Hc.
    simpl in Hc. rewrite length_app; simpl.
    split; [by rewrite Htr, app_assoc|]. split.
    + apply Forall_app. split; [done|]. constructor; [|done].
      exists o, signed. split; [done|]. split; [|done].
      by eapply list_elem_of_lookup_2.
    + split; [lia|]. intros Hno. by destruct (Hno rejection).
  - exists heads.
    pose proof (count_awaiting_insert (tasks s.1) i _
                  (Settled (Throw e)) Hti) as Hc.
    simpl in Hc. cbn [fst snd tasks outcome].
    split; [done|]. split; [done|].
    split; [lia|]. intros Hno. by destruct (Hno rejection).
Qed.

Lemma heads_ok_complete base i s :
  inv w bucket objects s.1 →
  heads_ok w bucket objects base s →
  heads_ok w bucket objects base (complete w bucket i s).
Proof.
  intros Hinv Hok. unfold complete.
  destruct (outcome s.1) as [[cs|e]|] eqn:Hout.
  - by apply heads_ok_complete_pending.
  - apply heads_ok_late; [by exists e|done..].
  - by apply heads_ok_complete_pending.
Qed.

Lemma heads_ok_run base order s :
  inv w bucket objects s.1 →
  heads_ok w bucket objects base s →
  heads_ok w bucket objects base (run w bucket order s).
Proof.
  revert s. induction order as [|i order IH]; intros s Hinv Hok; [done|].
  simpl. apply IH; [by apply inv_complete|by apply heads_ok_complete].
Qed.

(** A rejection of [Promise.all] is final. *)
Lemma run_stays_rejected order s e :
  outcome s.1 = Some (Throw e) → outcome (run w bucket order s).1 = Some (Throw e).
Proof.
  revert s. induction order as [|i order IH]; intros s Hout; [done|].
  simpl. apply IH. unfold complete. rewrite Hout. unfold late.
  destruct (tasks s.1 !! i) as [[o|o signed|r]|]; try done.
  by destruct (getSignedUrl w bucket (Key o) 3600).
Qed.

(** When [Promise.all] is fulfilled no callback is left waiting. *)
Lemma fulfilled_none_awaiting st cs :
  inv w bucket objects st → outcome st = Some (Ok cs) →
  count_awaiting (tasks st) = 0.
Proof.
  intros Hinv Hout. apply count_awaiting_none. intros i t Ht.
  destruct (inv_at _ _ _ _ _ _ Hinv Ht) as (o & v & Ho & Hv & Hslot).
  pose proof (inv_outcome _ Hinv) as Hoo. unfold outcome_ok in Hoo.
  rewrite Hout in Hoo. apply mapM_Some in Hoo.
  destruct (Forall2_lookup_l _ _ _ _ _ Hoo Hv) as (c & _ & Hid). simpl in Hid.
  subst v. destruct t as [| |r]; simpl in *; try done. by destruct Hslot.
Qed.

(** The calls of [await Promise.all(...)]: the signing calls, then the
    metadata calls. *)
Lemma promise_all_calls schedule tr :
  ∃ heads,
    (promise_all_map w bucket schedule objects tr).2
    = tr ++ signing_calls bucket objects ++ heads
    ∧ Forall (metadata_call_of w bucket objects) heads
    ∧ length heads ≤ length objects
    ∧ (∀ cs, (promise_all_map w bucket schedule objects tr).1 = Some (Ok cs) →
         length heads = length objects).
Proof.
  unfold promise_all_map; simpl.
  set (order := seq 0 (length objects) ++ seq 0 (length objects)).
  set (s1 := run w bucket schedule (started bucket objects tr)).
  assert (heads_ok w bucket objects (tr ++ signing_calls bucket objects)
            (started bucket objects tr)) as H0.
  { exists []. simpl. rewrite app_nil_r, count_awaiting_fmap.
    split; [done|]. split; [constructor|]. split; [lia|done]. }
  pose proof (inv_run w bucket objects schedule _ (inv_started w bucket objects tr))
    as Hinv1.
  pose proof (heads_ok_run _ schedule _ (inv_started w bucket objects tr) H0) as H1.
  fold s1 in Hinv1, H1.
  pose proof (inv_drain w bucket objects order _ Hinv1) as Hinv.
  destruct (heads_ok_drain _ order _ Hinv1 H1)
    as (heads & Htr & Hheads & Hle & Heq).
  exists heads. split; [by rewrite Htr, app_assoc|]. split; [done|].
  split; [lia|]. intros cs Hcs.
  rewrite (fulfilled_none_awaiting _ cs Hinv Hcs) in Heq.
  rewrite <- Heq; [lia|]. intros e. by rewrite Hcs.
Qed.

(** The first completion is a signing that fails: [Promise.all] is
    rejected with its error.  Every signing call has been issued; the
    calls that follow are metadata calls of the keys whose signing
    completes before the handler resumes, none when no call does. *)
Lemma promise_all_first_failure i o e schedule tr :
  objects !! i = Some o →
  getSignedUrl w bucket (Key o) 3600 = Throw e →
  ∃ heads,
    promise_all_map w bucket (i :: schedule) objects tr
    = (Some (Throw e), tr ++ signing_calls bucket objects ++ heads)
    ∧ Forall (metadata_call_of w bucket objects) heads
    ∧ (schedule = [] → heads = []).
Proof.
  intros Ho Hsign.
  assert (complete w bucket i (started bucket objects tr)
          = (reject i e (started bucket objects tr).1,
             tr ++ signing_calls bucket objects)) as Hfirst.
  { assert (all_values (replicate (length objects) None) = None) as Hpending
      by (destruct objects; [done|reflexivity]).
    unfold complete, complete_pending, started. cbn [fst snd outcome tasks].
    rewrite Hpending. cbn [fmap option_fmap option_map].
    rewrite list_lookup_fmap, Ho. cbn [fmap option_fmap option_map].
    by rewrite Hsign. }
  assert (run w bucket (i :: schedule) (started bucket objects tr)
          = run w bucket schedule
              (reject i e (started bucket objects tr).1,
               tr ++ signing_calls bucket objects)) as Hrun.
  { change (run w bucket (i :: schedule) (started bucket objects tr))
      with (run w bucket schedule (complete w bucket i (started bucket objects tr))).
    by rewrite Hfirst. }
  destruct (promise_all_calls (i :: schedule) tr) as (heads & Htr & Hheads & _).
  exists heads. split; [|split; [done|]].
  - rewrite <- Htr. unfold promise_all_map. cbn [fst snd]. f_equal.
    rewrite Hrun.
    rewrite drain_settled; by rewrite run_stays_rejected with (e := e).
  - intros ->. revert Htr. unfold promise_all_map. cbn [fst snd].
    rewrite Hrun. cbn [run foldl]. rewrite drain_settled by done. cbn [snd].
    rewrite <- (app_nil_r (signing_calls bucket objects)) at 1.
    by intros ->%(inj (app _))%(inj (app _)).
Qed.

End PromiseAllCalls.

(** ** More on the [try] block *)

Lemma append_assoc (a b c : string) : (a +:+ b) +:+ c = a +:+ (b +:+ c).
Proof.
  induction a as [|x a IH]; [done|].
  change (String x ((a +:+ b) +:+ c) = String x (a +:+ (b +:+ c))).
  by rewrite IH.
Qed.

(** The prefix the [switch] makes for a track it knows. *)
Lemma switch_videoType_prefix userId videoId videoType prefix :
  switch_videoType userId videoId videoType = Some prefix →
  prefix = userId +:+ "/" +:+ videoId +:+ "/" +:+ videoType +:+ "/".
Proof.
  unfold switch_videoType.
  destruct (String.eqb_spec videoType "screen") as [->|_]; [by intros [= <-]|].
  destruct (String.eqb_spec videoType "video") as [->|_]; [by intros [= <-]|].
  destruct (String.eqb_spec videoType "audio") as [->|_]; [by intros [= <-]|].
  done.
Qed.

(** The [try] block once the listing has answered. *)
Lemma stream_listed w schedule request userId videoId videoType thumbnail tr
    prefix objects :
  client_configured w →
  switch_videoType userId videoId videoType = Some prefix →
  listObjectsV2 w (ListObjectsV2Command (bucket_of w) prefix thumbnail) = Ok objects →
  stream w schedule request userId videoId videoType thumbnail tr
  = match promise_all_map w (bucket_of w) schedule (contents_or_empty objects)
            (tr ++ [CallListObjectsV2
                      (ListObjectsV2Command (bucket_of w) prefix thumbnail)]) with
    | (Some (Ok cs), tr') =>
        (Some (Ok (playlist_response w request (generateM3U8Playlist cs))),
         tr' ++ [CallGenerateM3U8Playlist cs])
    | (Some (Throw e), tr') =>
        (Some (Ok (error_response w request e)), tr' ++ [logged e])
    | (None, tr') => (None, tr')
    end.
Proof.
  intros Hclient Hsw Hlist. unfold stream. unfold bind at 1.
  unfold eval, new_S3Client. rewrite Hclient.
  unfold try_catch. rewrite Hsw.
  unfold bind at 1. unfold call at 1. rewrite Hlist.
  unfold bind at 1.
  by destruct (promise_all_map _ _ _ _ _) as [[[cs|e]|] tr'].
Qed.

(** A call that is neither a lookup, nor a listing, nor a call of the
    callbacks is the last one of the run. *)
Lemma final_in_trace tr0 cmd calls last c :
  Forall lookup_call tr0 → Forall storage_call calls →
  ¬ lookup_call c → ¬ storage_call c → (∀ i, c ≠ CallListObjectsV2 i) →
  c ∈ tr0 ++ [CallListObjectsV2 cmd] ++ calls ++ [last] → c = last.
Proof.
  rewrite !Forall_forall. intros H0 Hc Hl Hs Hlist.
  rewrite !elem_of_app, !elem_of_cons, elem_of_nil.
  intros [Hin|[[Heq|[]]|[Hin|[Heq|[]]]]]; try done.
  - by apply H0 in Hin.
  - by destruct (Hlist cmd).
  - by apply Hc in Hin.
Qed.

Lemma metadata_call_storage w bucket objects c :
  metadata_call_of w bucket objects c → storage_call c.
Proof. by intros (o & signed & -> & _). Qed.

Lemma not_in_lookups tr c : Forall lookup_call tr → ¬ lookup_call c → c ∉ tr.
Proof. rewrite Forall_forall. intros H Hc Hin. by apply Hc, H. Qed.

(** ** Cross-origin headers *)

(** X1: [OPTIONS] answers 200 without calling anyone; its
    Access-Control-Allow-Origin header is the origin of the request
    when that origin is [NEXT_PUBLIC_URL], "https://cap.link" or
    "cap.link", and "null" otherwise. *)
Theorem OPTIONS_allow_origin w request :
  ∃ resp,
    OPTIONS w request [] = (Some (Ok resp), [])
    ∧ bodyless_status resp = 200
    ∧ (NEXT_PUBLIC_URL (env w) = Some (origin request)
       ∨ origin request = "https://cap.link"
       ∨ origin request = "cap.link" →
       get (bodyless_headers resp) "Access-Control-Allow-Origin"
       = Some (origin request))
    ∧ (¬ (NEXT_PUBLIC_URL (env w) = Some (origin request)
          ∨ origin request = "https://cap.link"
          ∨ origin request = "cap.link") →
       get (bodyless_headers resp) "Access-Control-Allow-Origin" = Some "null").
Proof.
  eexists. split; [reflexivity|]. split; [done|]. simpl.
  unfold includes, allowedOrigins.
  split; intros H; case_bool_decide as Hd; try done;
    rewrite !elem_of_cons, elem_of_nil in Hd.
  - destruct Hd. destruct H as [-> | [-> | ->]]; auto.
  - destruct H. destruct Hd as [-> | [[= ->] | [[= ->] | []]]]; auto.
Qed.

(** X2: every response of [GET], whichever [return] makes it, carries
    the three headers [OPTIONS] answers for the same request, with the
    same values, and one header more, its content type: the manifest
    content type on the 200 response, and on the others the content
    type the [Response] constructor gives a string body. *)
Theorem GET_echoes_preflight_headers w schedule request resp :
  (GET w schedule request []).1 = Some (Ok resp) →
  ∃ preflight,
    OPTIONS w request [] = (Some (Ok preflight), [])
    ∧ (∀ name,
         name ∈ ["Access-Control-Allow-Origin"; "Access-Control-Allow-Credentials";
                 "Access-Control-Allow-Methods"] →
         get (headers resp) name = get (bodyless_headers preflight) name)
    ∧ (status resp = 200 →
       get (headers resp) "content-type" = Some "application/x-mpegURL")
    ∧ (status resp ≠ 200 →
       get (headers resp) "content-type" = Some "text/plain;charset=UTF-8")
    ∧ length (headers resp) = 4
    ∧ length (bodyless_headers preflight) = 3.
Proof.
  pose proof (GET_spec w schedule request) as Hrun. revert Hrun.
  generalize (GET w schedule request []). intros r Hrun.
  destruct Hrun as [?|?|?|?|?|??????? Hs]; [| | | | |destruct Hs];
    simpl; intros [= <-]; eexists; (split; [reflexivity|]);
    (split; [intros name Hin; rewrite !elem_of_cons, elem_of_nil in Hin;
             by destruct Hin as [-> | [-> | [-> | []]]]|]);
    by repeat split.
Qed.

Lemma GET_echoes_preflight_headers_witness :
  ∃ preflight,
    OPTIONS (sample_world JsFalse None) (sample_request "screen" []) []
    = (Some (Ok preflight), [])
    ∧ (∀ name,
         name ∈ ["Access-Control-Allow-Origin"; "Access-Control-Allow-Credentials";
                 "Access-Control-Allow-Methods"] →
         get (headers (forbidden_response (sample_world JsFalse None)
                         (sample_request "screen" []))) name
         = get (bodyless_headers preflight) name)
    ∧ (status (forbidden_response (sample_world JsFalse None)
                 (sample_request "screen" [])) = 200 →
       get (headers (forbidden_response (sample_world JsFalse None)
                       (sample_request "screen" []))) "content-type"
       = Some "application/x-mpegURL")
    ∧ (status (forbidden_response (sample_world JsFalse None)
                 (sample_request "screen" [])) ≠ 200 →
       get (headers (forbidden_response (sample_world JsFalse None)
                       (sample_request "screen" []))) "content-type"
       = Some "text/plain;charset=UTF-8")
    ∧ length (headers (forbidden_response (sample_world JsFalse None)
                         (sample_request "screen" []))) = 4
    ∧ length (bodyless_headers preflight) = 3.
Proof.
  apply (GET_echoes_preflight_headers (sample_world JsFalse None) [1; 0; 2]
           (sample_request "screen" [])).
  reflexivity.
Defined.

(** ** What the handler answers *)

Ltac not_a_lookup :=
  apply not_in_lookups;
  [first [apply lookups_lookup_call | by repeat constructor] | by intros []].

(** X3: a response of [GET] is of one of three kinds.  Status 200: the
    body is the text the builder returned, the builder was called and
    nothing was logged.  Status 500: the body carries the thrown error
    with "Error generating video URLs", the error was logged with
    [console.error] and the builder was not called.  Status 401: the
    body is [{ error: true, message }], and neither happened. *)
Theorem GET_status_classes w schedule request resp :
  (GET w schedule request []).1 = Some (Ok resp) →
  (status resp = 200
   ∧ (∃ urls, body resp = BodyText (generateM3U8Playlist urls)
              ∧ CallGenerateM3U8Playlist urls ∈ (GET w schedule request []).2)
   ∧ ∀ e, logged e ∉ (GET w schedule request []).2)
  ∨ (status resp = 500
     ∧ (∃ e, body resp = BodyJson (ErrorThrown e) "Error generating video URLs"
             ∧ logged e ∈ (GET w schedule request []).2)
     ∧ ∀ urls, CallGenerateM3U8Playlist urls ∉ (GET w schedule request []).2)
  ∨ (status resp = 401
     ∧ (∃ message, body resp = BodyJson ErrorTrue message)
     ∧ (∀ urls, CallGenerateM3U8Playlist urls ∉ (GET w schedule request []).2)
     ∧ ∀ e, logged e ∉ (GET w schedule request []).2).
Proof.
  pose proof (GET_spec w schedule request) as Hrun. revert Hrun.
  generalize (GET w schedule request []). intros r Hrun.
  destruct Hrun as [?|?|?|?|?|video rest r ???? Hs];
    [| | | | |destruct Hs as [?|??|prefix e ???|prefix objects calls cs ?????
                              |prefix objects calls o e ??????]];
    cbn [fst snd]; intros [= <-].
  - right; right. split; [done|]. split; [by eexists|].
    split; intros ?; not_a_lookup.
  - right; right. split; [done|]. split; [by eexists|].
    split; intros ?; not_a_lookup.
  - right; right. split; [done|]. split; [by eexists|].
    split; intros ?; not_a_lookup.
  - right; right. split; [done|]. split; [by eexists|].
    split; intros ?; not_a_lookup.
  - right; left. split; [done|]. split.
    + exists e. split; [done|].
      apply (last_in_trace _ [_] []).
    + intros urls Hin.
      apply (final_in_trace _ _ [] (logged e)) in Hin;
        [done | apply lookups_lookup_call | done | by intros [] | by intros [] | done].
  - left. split; [done|]. split.
    + exists cs. split; [done|]. apply last_in_trace.
    + intros e Hin.
      apply (final_in_trace _ _ calls (CallGenerateM3U8Playlist cs)) in Hin;
        [done | apply lookups_lookup_call | done | by intros [] | by intros [] | done].
  - right; left. split; [done|]. split.
    + exists e. split; [done|]. apply last_in_trace.
    + intros urls Hin.
      apply (final_in_trace _ _ calls (logged e)) in Hin;
        [done | apply lookups_lookup_call | done | by intros [] | by intros [] | done].
Qed.

Lemma GET_status_classes_witness :
  (status (error_response (broken_world "u1/v1/screen/b.ts")
             (sample_request "screen" []) "AccessDenied") = 200
   ∧ (∃ urls,
        body (error_response (broken_world "u1/v1/screen/b.ts")
                (sample_request "screen" []) "AccessDenied")
        = BodyText (generateM3U8Playlist urls)
        ∧ CallGenerateM3U8Playlist urls
          ∈ (GET (broken_world "u1/v1/screen/b.ts") [1; 1]
               (sample_request "screen" []) []).2)
   ∧ ∀ e, logged e ∉ (GET (broken_world "u1/v1/screen/b.ts") [1; 1]
                        (sample_request "screen" []) []).2)
  ∨ (status (error_response (broken_world "u1/v1/screen/b.ts")
               (sample_request "screen" []) "AccessDenied") = 500
     ∧ (∃ e,
          body (error_response (broken_world "u1/v1/screen/b.ts")
                  (sample_request "screen" []) "AccessDenied")
          = BodyJson (ErrorThrown e) "Error generating video URLs"
          ∧ logged e ∈ (GET (broken_world "u1/v1/screen/b.ts") [1; 1]
                          (sample_request "screen" []) []).2)
     ∧ ∀ urls,
         CallGenerateM3U8Playlist urls
         ∉ (GET (broken_world "u1/v1/screen/b.ts") [1; 1]
              (sample_request "screen" []) []).2)
  ∨ (status (error_response (broken_world "u1/v1/screen/b.ts")
               (sample_request "screen" []) "AccessDenied") = 401
     ∧ (∃ message,
          body (error_response (broken_world "u1/v1/screen/b.ts")
                  (sample_request "screen" []) "AccessDenied")
          = BodyJson ErrorTrue message)
     ∧ (∀ urls,
          CallGenerateM3U8Playlist urls
          ∉ (GET (broken_world "u1/v1/screen/b.ts") [1; 1]
               (sample_request "screen" []) []).2)
     ∧ ∀ e, logged e ∉ (GET (broken_world "u1/v1/screen/b.ts") [1; 1]
                          (sample_request "screen" []) []).2).
Proof.
  apply (GET_status_classes (broken_world "u1/v1/screen/b.ts") [1; 1]
           (sample_request "screen" [])).
  reflexivity.
Defined.

(** X4: [GET] throws (its promise is rejected) exactly when both ids
    are there and one of the three steps outside the [try] block
    throws: the query of the video table; [getCurrentUser], for a
    private video; [new S3Client], for want of a region, once the
    requester may see the video.  The error is the one of that step.
    Nothing the [try] block does makes [GET] throw. *)
Theorem GET_throws_iff w schedule request e :
  (GET w schedule request []).1 = Some (Throw e)
  ↔ truthy (param request "userId") = true
    ∧ truthy (param request "videoId") = true
    ∧ (db_select_videos w (param request "videoId") = Throw e
       ∨ (∃ video rest,
            db_select_videos w (param request "videoId") = Ok (video :: rest)
            ∧ is_private video
            ∧ getCurrentUser w = Throw e)
       ∨ (∃ video rest,
            db_select_videos w (param request "videoId") = Ok (video :: rest)
            ∧ granted w video
            ∧ ¬ client_configured w
            ∧ e = "Region is missing")).
Proof.
  split.
  - pose proof (GET_spec w schedule request) as Hrun. revert Hrun.
    generalize (GET w schedule request []). intros r Hrun.
    destruct Hrun as [?|e' Hu Hv Hdb|?|video rest e' Hu Hv Hdb Hpriv Hsession|?
                     |video rest r Hu Hv Hdb Hg Hs];
      [| | | | |destruct Hs]; cbn [fst]; intros Heq; try discriminate Heq.
    + injection Heq as <-. auto.
    + injection Heq as <-. split; [done|]. split; [done|].
      right; left. by exists video, rest.
    + injection Heq as <-. split; [done|]. split; [done|].
      right; right. by exists video, rest.
  - intros (Hu & Hv & [Hdb|[(video & rest & Hdb & Hpriv & Hsession)
                           |(video & rest & Hdb & Hg & Hno & ->)]]).
    + by rewrite (GET_lookup_failed w request Hu Hv schedule e).
    + by rewrite (GET_session_failed w request Hu Hv schedule video rest e).
    + rewrite (GET_granted w request schedule video rest) by done.
      by rewrite stream_unconfigured.
Qed.

(** X5: [getCurrentUser] is called exactly when both ids are there and
    the first row found for the video is private. *)
Theorem session_consulted_iff_private w schedule request :
  CallGetCurrentUser ∈ (GET w schedule request []).2
  ↔ truthy (param request "userId") = true
    ∧ truthy (param request "videoId") = true
    ∧ ∃ video rest,
        db_select_videos w (param request "videoId") = Ok (video :: rest)
        ∧ is_private video.
Proof.
  split.
  - destruct (truthy (param request "userId")) eqn:Hu.
    2: { rewrite GET_missing by auto. by intros ?%elem_of_nil. }
    destruct (truthy (param request "videoId")) eqn:Hv.
    2: { rewrite GET_missing by auto. by intros ?%elem_of_nil. }
    destruct (db_select_videos w (param request "videoId"))
      as [[|video rest]|e] eqn:Hdb.
    + rewrite GET_not_found by done. cbn [snd].
      by intros [=]%list_elem_of_singleton.
    + destruct (private_dec video) as [Hpriv|Hpub]; [by eauto 6|].
      rewrite (GET_public w request Hu Hv schedule video rest) by done.
      destruct (stream_trace w request schedule
                  [CallDbSelectVideos (param request "videoId")])
        as (tl & -> & Htl).
      intros Hin%session_in_trace; [|done].
      by apply list_elem_of_singleton in Hin.
    + rewrite (GET_lookup_failed w request Hu Hv schedule e) by done.
      cbn [snd]. by intros [=]%list_elem_of_singleton.
  - intros (Hu & Hv & video & rest & Hdb & Hpriv).
    destruct (getCurrentUser w) as [requester|e] eqn:Hsession.
    + destruct (match requester with
                | None => true
                | Some u => negb (String.eqb (user_userId u) (video_ownerId video))
                end) eqn:Htest.
      * assert (¬ is_owner requester video) as Hno
          by (intros Ho%owner_test; congruence).
        rewrite (GET_forbidden w request Hu Hv schedule video rest requester)
          by done.
        cbn [snd]. rewrite !elem_of_cons. auto.
      * apply owner_test in Htest.
        rewrite (GET_owner w request Hu Hv schedule video rest requester) by done.
        destruct (stream_trace w request schedule
                    [CallDbSelectVideos (param request "videoId"); CallGetCurrentUser])
          as (tl & -> & _).
        rewrite elem_of_app, !elem_of_cons. auto.
    + rewrite (GET_session_failed w request Hu Hv schedule video rest e) by done.
      cbn [snd]. rewrite !elem_of_cons. auto.
Qed.

(** X6: the promise of [GET] always settles: whatever the collaborators
    answer and in whatever order the signing and metadata calls
    complete, [GET] answers or throws once they have completed;
    [Promise.all] is never left pending. *)
Theorem GET_never_pending w schedule request :
  ∃ r, (GET w schedule request []).1 = Some r.
Proof.
  pose proof (GET_settles w request schedule) as H.
  destruct ((GET w schedule request []).1) as [r|]; [by exists r|done].
Qed.

(** X7: only the first row the query returns is read: with the rows
    [video :: rest] the handler does what it does when the table holds
    [video] alone. *)
Theorem only_first_row_is_read w schedule request video rest :
  db_select_videos w (param request "videoId") = Ok (video :: rest) →
  GET (with_videos w (Ok [video])) schedule request [] = GET w schedule request [].
Proof.
  intros Hdb.
  destruct (truthy (param request "userId")) eqn:Hu.
  2: { rewrite (GET_missing (with_videos w (Ok [video])) request schedule),
         (GET_missing w request schedule) by auto. done. }
  destruct (truthy (param request "videoId")) eqn:Hv.
  2: { rewrite (GET_missing (with_videos w (Ok [video])) request schedule),
         (GET_missing w request schedule) by auto. done. }
  destruct (private_dec video) as [Hpriv|Hpub].
  - destruct (getCurrentUser w) as [requester|e] eqn:Hsession.
    + destruct (match requester with
                | None => true
                | Some u => negb (String.eqb (user_userId u) (video_ownerId video))
                end) eqn:Htest.
      * assert (¬ is_owner requester video) as Hno
          by (intros Ho%owner_test; congruence).
        rewrite (GET_forbidden (with_videos w (Ok [video])) request Hu Hv schedule
                   video [] requester),
          (GET_forbidden w request Hu Hv schedule video rest requester) by done.
        done.
      * apply owner_test in Htest.
        rewrite (GET_owner (with_videos w (Ok [video])) request Hu Hv schedule
                   video [] requester),
          (GET_owner w request Hu Hv schedule video rest requester) by done.
        done.
    + rewrite (GET_session_failed (with_videos w (Ok [video])) request Hu Hv schedule
                 video [] e),
        (GET_session_failed w request Hu Hv schedule video rest e) by done.
      done.
  - rewrite (GET_public (with_videos w (Ok [video])) request Hu Hv schedule video []),
      (GET_public w request Hu Hv schedule video rest) by done.
    done.
Qed.

Lemma only_first_row_is_read_witness :
  GET (with_videos
         (store_world sample_env
            [sample_video JsTrue;
             {| video_id := "v1"; video_ownerId := "u9"; video_public := JsFalse |}]
            None sample_objects)
         (Ok [sample_video JsTrue]))
    [0; 1] (sample_request "screen" []) []
  = GET (store_world sample_env
           [sample_video JsTrue;
            {| video_id := "v1"; video_ownerId := "u9"; video_public := JsFalse |}]
           None sample_objects)
      [0; 1] (sample_request "screen" []) [].
Proof.
  apply (only_first_row_is_read
           (store_world sample_env
              [sample_video JsTrue;
               {| video_id := "v1"; video_ownerId := "u9"; video_public := JsFalse |}]
              None sample_objects)
           [0; 1] (sample_request "screen" []) (sample_video JsTrue)
           [{| video_id := "v1"; video_ownerId := "u9"; video_public := JsFalse |}]).
  reflexivity.
Defined.

(** ** The listing *)



(** X9: for the same ids, two tracks the [switch] knows never share a
    prefix. *)
Theorem track_prefixes_distinct userId videoId track1 track2 prefix :
  switch_videoType userId videoId track1 = Some prefix →
  switch_videoType userId videoId track2 = Some prefix →
  track1 = track2.
Proof.
  intros H1 H2.
  assert (track1 ∈ ["screen"; "video"; "audio"]) as Ht1
    by (eapply switch_videoType_Some; by rewrite H1).
  assert (track2 ∈ ["screen"; "video"; "audio"]) as Ht2
    by (eapply switch_videoType_Some; by rewrite H2).
  apply switch_videoType_prefix in H1, H2. rewrite H1 in H2. clear H1.
  do 4 apply (inj (String.append _)) in H2.
  rewrite !elem_of_cons, elem_of_nil in Ht1, Ht2.
  destruct Ht1 as [-> | [-> | [-> | []]]], Ht2 as [-> | [-> | [-> | []]]];
    done.
Qed.

Lemma track_prefixes_distinct_witness : "audio" = "audio".
Proof.
  apply (track_prefixes_distinct "u1" "v1" "audio" "audio" "u1/v1/audio/");
    reflexivity.
Defined.

(** X10: the prefix does not tell the ids apart when they hold a
    slash: the ids [a/b] and [c] list the same keys as the ids [a] and
    [b/c]. *)
Theorem prefix_slash_collision a b c track :
  switch_videoType (a +:+ "/" +:+ b) c track
  = switch_videoType a (b +:+ "/" +:+ c) track.
Proof.
  unfold switch_videoType. by rewrite !append_assoc.
Qed.

Lemma stream_listing_failed w schedule request userId videoId videoType thumbnail
    tr prefix e :
  client_configured w →
  switch_videoType userId videoId videoType = Some prefix →
  listObjectsV2 w (ListObjectsV2Command (bucket_of w) prefix thumbnail) = Throw e →
  stream w schedule request userId videoId videoType thumbnail tr
  = (Some (Ok (error_response w request e)),
     tr ++ [CallListObjectsV2 (ListObjectsV2Command (bucket_of w) prefix thumbnail);
            logged e]).
Proof.
  intros Hclient Hsw Hlist. unfold stream. unfold bind at 1.
  unfold eval, new_S3Client. rewrite Hclient.
  unfold try_catch. rewrite Hsw.
  unfold bind at 1. unfold call at 1. rewrite Hlist.
  unfold bind, call, ret. cbn [fst snd]. by rewrite <- app_assoc.
Qed.

(** X11: when the listing itself throws, the [catch] block answers 500
    with that error and logs it; no URL is signed and no metadata is
    fetched. *)
Theorem listing_failure_is_caught w schedule request input e :
  CallListObjectsV2 input ∈ (GET w schedule request []).2 →
  listObjectsV2 w input = Throw e →
  ∃ tr0,
    Forall lookup_call tr0
    ∧ GET w schedule request []
      = (Some (Ok (error_response w request e)),
         tr0 ++ [CallListObjectsV2 input; logged e]).
Proof.
  intros Hin Hlist.
  pose proof (GET_listing_configured w request schedule input Hin) as Hclient.
  destruct (GET_reaches_listing w request schedule input Hin)
    as (video & rest & prefix & _ & _ & _ & _ & Hsw & -> & Heq).
  exists (lookups (param request "videoId") video).
  split; [apply lookups_lookup_call|].
  rewrite Heq. unfold stream_of. by apply stream_listing_failed.
Qed.

Lemma listing_failure_is_caught_witness :
  ∃ tr0,
    Forall lookup_call tr0
    ∧ GET unlistable_world [] (sample_request "screen" []) []
      = (Some (Ok (error_response unlistable_world (sample_request "screen" [])
                     "SlowDown")),
         tr0 ++ [CallListObjectsV2 (sample_listing ""); logged "SlowDown"]).
Proof.
  apply (listing_failure_is_caught unlistable_world []
           (sample_request "screen" []) (sample_listing "") "SlowDown").
  - vm_compute. repeat constructor.
  - reflexivity.
Defined.

(** ** The calls of the segment resolution *)

(** X12: once the listing has answered, the rest of the run is: one
    signing call for each listed key, in listing order, each on the
    bucket and with [expiresIn] 3600, all before any metadata call;
    then metadata calls, each for a listed key whose URL was signed and
    no more of them than listed keys; then the call of the builder or
    of [console.error].  When the builder is called there were as many
    metadata calls as keys. *)
Theorem storage_calls_shape w schedule request input output :
  CallListObjectsV2 input ∈ (GET w schedule request []).2 →
  listObjectsV2 w input = Ok output →
  ∃ tr0 heads last,
    (GET w schedule request []).2
    = tr0 ++ [CallListObjectsV2 input]
          ++ signing_calls (bucket_of w) (contents_or_empty output)
          ++ heads ++ [last]
    ∧ Forall lookup_call tr0
    ∧ Forall (metadata_call_of w (bucket_of w) (contents_or_empty output)) heads
    ∧ length heads ≤ length (contents_or_empty output)
    ∧ ((∃ cs, last = CallGenerateM3U8Playlist cs
              ∧ length heads = length (contents_or_empty output))
       ∨ ∃ e, last = logged e).
Proof.
  intros Hin Hout.
  pose proof (GET_listing_configured w request schedule input Hin) as Hclient.
  destruct (GET_reaches_listing w request schedule input Hin)
    as (video & rest & prefix & _ & _ & _ & _ & Hsw & -> & Heq).
  rewrite Heq. unfold stream_of.
  rewrite (stream_listed _ _ _ _ _ _ _ _ _ _ Hclient Hsw Hout).
  set (tr1 := lookups (param request "videoId") video
              ++ [CallListObjectsV2
                    (ListObjectsV2Command (bucket_of w) prefix
                       (param request "thumbnail"))]).
  destruct (promise_all_calls w (bucket_of w) (contents_or_empty output) schedule tr1)
    as (heads & Htr & Hheads & Hle & Hfull).
  pose proof (promise_all_settles w (bucket_of w) (contents_or_empty output)
                schedule tr1) as Hsettles.
  destruct (promise_all_map w (bucket_of w) schedule (contents_or_empty output) tr1)
    as [[[cs|e]|] tr'] eqn:Hall; cbn [fst snd] in *; [| |done].
  - exists (lookups (param request "videoId") video), heads,
      (CallGenerateM3U8Playlist cs).
    split; [by rewrite Htr; unfold tr1; rewrite <- !app_assoc|].
    split; [apply lookups_lookup_call|]. split; [done|]. split; [done|].
    left. exists cs. split; [done|]. by apply (Hfull cs).
  - exists (lookups (param request "videoId") video), heads, (logged e).
    split; [by rewrite Htr; unfold tr1; rewrite <- !app_assoc|].
    split; [apply lookups_lookup_call|]. split; [done|]. split; [done|].
    right. by exists e.
Qed.

Lemma storage_calls_shape_witness :
  ∃ tr0 heads last,
    (GET (sample_world JsTrue None) [2; 0; 2] (sample_request "screen" []) []).2
    = tr0 ++ [CallListObjectsV2 (sample_listing "")]
          ++ signing_calls (bucket_of (sample_world JsTrue None))
               (contents_or_empty {| Contents := Some sample_keys |})
          ++ heads ++ [last]
    ∧ Forall lookup_call tr0
    ∧ Forall (metadata_call_of (sample_world JsTrue None)
                (bucket_of (sample_world JsTrue None))
                (contents_or_empty {| Contents := Some sample_keys |})) heads
    ∧ length heads ≤ length (contents_or_empty {| Contents := Some sample_keys |})
    ∧ ((∃ cs, last = CallGenerateM3U8Playlist cs
              ∧ length heads
                = length (contents_or_empty {| Contents := Some sample_keys |}))
       ∨ ∃ e, last = logged e).
Proof.
  apply (storage_calls_shape (sample_world JsTrue None) [2; 0; 2]
           (sample_request "screen" []) (sample_listing "")
           {| Contents := Some sample_keys |}).
  - vm_compute. repeat constructor.
  - reflexivity.
Defined.

(** X13: when the call that completes first is the signing of a listed
    key and it fails, the handler answers 500 with that error.  Every
    signing call was issued before.  What is issued between the failure
    and [console.error] are metadata calls of listed keys whose signing
    completed before the handler resumed: none for the key that failed,
    and none at all when no other call completes in between. *)
Theorem first_failed_signing_is_reported w schedule request input output i o e :
  CallListObjectsV2 input ∈ (GET w (i :: schedule) request []).2 →
  listObjectsV2 w input = Ok output →
  contents_or_empty output !! i = Some o →
  getSignedUrl w (bucket_of w) (Key o) 3600 = Throw e →
  ∃ tr0 heads,
    Forall lookup_call tr0
    ∧ Forall (metadata_call_of w (bucket_of w) (contents_or_empty output)) heads
    ∧ (CallHeadObject (bucket_of w) (Key o) ∉ heads)
    ∧ (schedule = [] → heads = [])
    ∧ GET w (i :: schedule) request []
      = (Some (Ok (error_response w request e)),
         tr0 ++ [CallListObjectsV2 input]
             ++ signing_calls (bucket_of w) (contents_or_empty output)
             ++ heads ++ [logged e]).
Proof.
  intros Hin Hout Ho Hsign.
  pose proof (GET_listing_configured w request (i :: schedule) input Hin) as Hclient.
  destruct (GET_reaches_listing w request (i :: schedule) input Hin)
    as (video & rest & prefix & _ & _ & _ & _ & Hsw & -> & Heq).
  set (tr1 := lookups (param request "videoId") video
              ++ [CallListObjectsV2
                    (ListObjectsV2Command (bucket_of w) prefix
                       (param request "thumbnail"))]).
  destruct (promise_all_first_failure w (bucket_of w) (contents_or_empty output)
              i o e schedule tr1 Ho Hsign) as (heads & Hall & Hheads & Hnone).
  exists (lookups (param request "videoId") video), heads.
  split; [apply lookups_lookup_call|]. split; [done|]. split.
  { intros Hhead. rewrite Forall_forall in Hheads.
    destruct (Hheads _ Hhead) as (o' & signed & [= Hkey] & _ & Hsigned).
    rewrite <- Hkey in Hsigned. congruence. }
  split; [done|].
  rewrite Heq. unfold stream_of.
  rewrite (stream_listed _ _ _ _ _ _ _ _ _ _ Hclient Hsw Hout).
  fold tr1. rewrite Hall. unfold tr1. by rewrite <- !app_assoc.
Qed.

Lemma first_failed_signing_is_reported_witness :
  ∃ tr0 heads,
    Forall lookup_call tr0
    ∧ Forall (metadata_call_of (unsignable_world "u1/v1/screen/c.ts")
                (bucket_of (unsignable_world "u1/v1/screen/c.ts"))
                (contents_or_empty {| Contents := Some sample_keys |})) heads
    ∧ (CallHeadObject (bucket_of (unsignable_world "u1/v1/screen/c.ts"))
         (Key {| Key := "u1/v1/screen/c.ts" |}) ∉ heads)
    ∧ ([0; 1] = [] → heads = [])
    ∧ GET (unsignable_world "u1/v1/screen/c.ts") [2; 0; 1]
        (sample_request "screen" []) []
      = (Some (Ok (error_response (unsignable_world "u1/v1/screen/c.ts")
                     (sample_request "screen" []) "CredentialsError")),
         tr0 ++ [CallListObjectsV2 (sample_listing "")]
             ++ signing_calls (bucket_of (unsignable_world "u1/v1/screen/c.ts"))
                  (contents_or_empty {| Contents := Some sample_keys |})
             ++ heads ++ [logged "CredentialsError"]).
Proof.
  apply (first_failed_signing_is_reported (unsignable_world "u1/v1/screen/c.ts")
           [0; 1] (sample_request "screen" []) (sample_listing "")
           {| Contents := Some sample_keys |} 2 {| Key := "u1/v1/screen/c.ts" |}
           "CredentialsError").
  - vm_compute. repeat constructor.
  - reflexivity.
  - reflexivity.
  - reflexivity.
Defined.

(** The siblings of the signing that fails first go on: with the keys
    [a] and [b] signed before the handler resumes, their metadata calls
    come before [console.error]. *)
Example siblings_run_on :
  (GET (unsignable_world "u1/v1/screen/c.ts") [2; 0; 1]
     (sample_request "screen" []) []).2
  = [CallDbSelectVideos "v1";
     CallListObjectsV2 (sample_listing "");
     CallGetSignedUrl "capso" "u1/v1/screen/a.ts" 3600;
     CallGetSignedUrl "capso" "u1/v1/screen/b.ts" 3600;
     CallGetSignedUrl "capso" "u1/v1/screen/c.ts" 3600;
     CallHeadObject "capso" "u1/v1/screen/a.ts";
     CallHeadObject "capso" "u1/v1/screen/b.ts";
     logged "CredentialsError"].
Proof. reflexivity. Qed.

(** X14: a 500 answer after the listing has answered carries the error
    with which one of the listed keys fails (at signing, or at the
    metadata call once signed); so when the listed keys that fail all
    fail with one error, that error is answered whatever the completion
    order. *)
Theorem reported_error_is_a_key_failure w schedule request input output resp :
  CallListObjectsV2 input ∈ (GET w schedule request []).2 →
  listObjectsV2 w input = Ok output →
  (GET w schedule request []).1 = Some (Ok resp) →
  status resp = 500 →
  ∃ o e,
    o ∈ contents_or_empty output
    ∧ resolve w (bucket_of w) o = Throw e
    ∧ resp = error_response w request e
    ∧ ((∀ o' e', o' ∈ contents_or_empty output →
          resolve w (bucket_of w) o' = Throw e' → e' = e) →
       ∀ schedule',
         (GET w schedule' request []).1 = Some (Ok (error_response w request e))).
Proof.
  intros Hin Hout Hresp Hstatus.
  destruct (GET_listed w request schedule input output Hin Hout)
    as (tr0 & calls & _ & _ & [(cs & _ & Heq)|(o & e & Ho & He & Heq)]);
    rewrite Heq in Hresp; injection Hresp as <-; [done|].
  exists o, e. repeat split; try done.
  intros Hsame schedule'.
  pose proof (GET_reach_any_schedule w request schedule schedule' input Hin) as Hin'.
  destruct (GET_some_rejected w request schedule' input output o e Hin' Hout Ho He)
    as (tr0' & calls' & e' & _ & _ & Heq').
  assert (e' = e) as ->; [|by rewrite Heq'].
  destruct (GET_listed w request schedule' input output Hin' Hout)
    as (tr1 & calls1 & _ & _ & [(cs & _ & Heq1)|(o1 & e1 & Ho1 & He1 & Heq1)]);
    rewrite Heq1 in Heq'; injection Heq' as ?; simplify_eq.
  by apply (Hsame o1).
Qed.

Lemma reported_error_is_a_key_failure_witness :
  ∃ o e,
    o ∈ contents_or_empty {| Contents := Some sample_keys |}
    ∧ resolve (broken_world "u1/v1/screen/b.ts")
        (bucket_of (broken_world "u1/v1/screen/b.ts")) o = Throw e
    ∧ error_response (broken_world "u1/v1/screen/b.ts")
        (sample_request "screen" []) "AccessDenied"
      = error_response (broken_world "u1/v1/screen/b.ts")
          (sample_request "screen" []) e
    ∧ ((∀ o' e', o' ∈ contents_or_empty {| Contents := Some sample_keys |} →
          resolve (broken_world "u1/v1/screen/b.ts")
            (bucket_of (broken_world "u1/v1/screen/b.ts")) o' = Throw e' →
          e' = e) →
       ∀ schedule',
         (GET (broken_world "u1/v1/screen/b.ts") schedule'
            (sample_request "screen" []) []).1
         = Some (Ok (error_response (broken_world "u1/v1/screen/b.ts")
                       (sample_request "screen" []) e))).
Proof.
  apply (reported_error_is_a_key_failure (broken_world "u1/v1/screen/b.ts")
           [0; 1; 1] (sample_request "screen" []) (sample_listing "")
           {| Contents := Some sample_keys |}).
  - vm_compute. repeat constructor.
  - reflexivity.
  - reflexivity.
  - reflexivity.
Defined.
